(** * A shallow embedding of the music-module session: the track queue of
    [MusicSubscription] (src/src/Subscription.ts), its voice-connection
    supervisor, and the [durationWrapper] helper (src/src/Track.ts).

    JavaScript numbers that hold whole seconds or milliseconds are modelled
    as [Z]; the arithmetic of [durationWrapper] is modelled as IEEE double
    arithmetic on such whole numbers. The session runs on one thread and its event handlers never
    interleave, so each handler is a function on an explicit state. *)

From Stdlib Require Import ZArith Lia List String Ascii QArith Sorted.
From Stdlib Require Import DecimalString.
Import ListNotations.
Open Scope Z_scope.

(* ------------------------------------------------------------------ *)
(** ** durationWrapper (src/src/Track.ts) *)

Record WrappedDuration := {
  decimalMinutes : Q;
  flatMinutes : Z;
  seconds : Z;
  timestamp : string
}.

(** [String(n)] / template interpolation of an integral JS number: its
    plain decimal digits (what [Number.prototype.toString] prints for an
    integral double below 10^21). *)
Definition Number_toString (n : Z) : string :=
  NilZero.string_of_int (Z.to_int n).

(** *** Double arithmetic

    A finite double is a pair [(m, e)] of an integer mantissa and an
    exponent, with value [m * 2^e]. A double operation computes the exact
    result and rounds it to the nearest double, ties to an even mantissa:
    with [|m|] scaled into [[2^52, 2^53)]. Subnormals and overflow are not
    modelled; they do not arise for the whole numbers of seconds of a
    video length (results of magnitude at least 1/60 and far below
    2^1024). *)

(** [a / b] rounded to the nearest integer, ties to even ([b > 0]). *)
Definition round_div (a b : Z) : Z :=
  let q := a / b in
  let r := a mod b in
  if 2 * r <? b then q
  else if b <? 2 * r then q + 1
  else if Z.even q then q else q + 1.

(** [n / (d * 2^e)] as a fraction with an integer numerator and
    denominator. *)
Definition scale (n d e : Z) : Z * Z :=
  if 0 <=? e then (n, d * 2 ^ e) else (n * 2 ^ (- e), d).

(** For [a, b > 0], the exponent [e] that puts [a / (b * 2^e)] in
    [[2^52, 2^53)]: the binade of [a / b], less the 52 fraction bits. *)
Definition double_exponent (a b : Z) : Z :=
  let e0 := Z.log2 a - Z.log2 b - 52 in
  let (N, D) := scale a b e0 in
  if N <? 2 ^ 52 * D then e0 - 1 else e0.

(** The double nearest to [n / d] ([d > 0]). *)
Definition round_double (n d : Z) : Z * Z :=
  if n =? 0 then (0, 0)
  else
    let e := double_exponent (Z.abs n) d in
    let (N, D) := scale n d e in
    (round_div N D, e).

(** [Math.floor] of a double; also the value of an integral double. *)
Definition double_floor (x : Z * Z) : Z :=
  let (m, e) := x in if 0 <=? e then m * 2 ^ e else m / 2 ^ (- e).

Definition double_to_Q (x : Z * Z) : Q :=
  let (m, e) := x in inject_Z m * Qpower (2 # 1) e.

(** [durationWrapper(seconds)] on an integral double [seconds_]:
    [seconds / 60] is rounded to a double, [Math.floor] is exact, and
    [minutes * 60] and [seconds - minutes * 60] are rounded again. *)
Definition durationWrapper (seconds_ : Z) : WrappedDuration :=
  let decimalMinutes_ := round_double seconds_ 60 in
  let minutes := double_floor (round_double seconds_ 60) in
  let product := double_floor (round_double (minutes * 60) 1) in
  let secondsLeft := double_floor (round_double (seconds_ - product) 1) in
  {| decimalMinutes := double_to_Q decimalMinutes_;
     flatMinutes := minutes;
     seconds := secondsLeft;
     timestamp := (Number_toString minutes ++ ":" ++ Number_toString secondsLeft)%string |}.


(* ------------------------------------------------------------------ *)
(** ** Tracks and their audio resources (src/src/Track.ts) *)

(** The caller's [reference] is an opaque token ([any] in the source). *)
Definition Reference := nat.

Record TrackMetadataDetails := {
  title : string;
  duration : WrappedDuration;
  uploadedBy : string;
  coverArt : string
}.

Record TrackMetadata := {
  reference : Reference;
  details : TrackMetadataDetails
}.

(** An [AudioResource<TrackMetadata>] of @discordjs/voice. Of the library
    state only what [AudioPlayer.play] inspects is kept: [playable] is false
    when [play] throws for this resource (it has already ended, or another
    player owns it), and [started] tells whether [play] enters [Playing]
    directly rather than [Buffering]. *)
Record AudioResource := {
  metadata : TrackMetadata;
  playable : bool;
  started : bool
}.

Record Track := {
  query : string;
  url : option string;
  audioResource : option AudioResource;
  track_reference : Reference
}.

(** What [Track.create] guarantees: the audio resource is set, and its
    metadata carries the reference the track was created with. *)
Definition track_created (t : Track) : Prop :=
  exists r, audioResource t = Some r /\ reference (metadata r) = track_reference t.

(* ------------------------------------------------------------------ *)
(** ** The audio player (external, @discordjs/voice) *)

Inductive ActiveStatus := Buffering | Playing | Paused | AutoPaused.

Inductive AudioPlayerState :=
| Idle
| Active (status : ActiveStatus) (resource : AudioResource).

Definition isIdle (p : AudioPlayerState) : bool :=
  match p with Idle => true | Active _ _ => false end.

Inductive PlayError :=
| NoResource      (* [play(undefined)]: a TypeError *)
| NotPlayable.    (* [play] throws on an ended or foreign resource *)

(** [audioPlayer.play(resource)]: throws, or enters [Playing] / [Buffering]
    with that resource. *)
Definition play (res : option AudioResource)
  : PlayError + (AudioResource * AudioPlayerState) :=
  match res with
  | None => inl NoResource
  | Some r =>
      if playable r
      then inr (r, Active (if started r then Playing else Buffering) r)
      else inl NotPlayable
  end.

(* ------------------------------------------------------------------ *)
(** ** MusicSubscription: queue, lock and notifications *)

(** Observable effects, in order: the events the subscription emits, and
    each successful [audioPlayer.play] call. *)
Inductive Note :=
| Played (r : AudioResource)
| SongStarted (ref : Reference) (d : TrackMetadataDetails)
| SongEnded (ref : Reference) (d : TrackMetadataDetails)
| PlayingError (ref : option Reference) (err : PlayError).

Record Session := mkSession {
  queue : list Track;
  queueLock : bool;
  audioPlayer : AudioPlayerState
}.

Definition initialSession : Session := mkSession [] false Idle.

(** The audio player's [stateChange] listener registered in the
    constructor. It returns the emitted events and whether it calls
    [processQueue]. *)
Definition onPlayerStateChange (oldState newState : AudioPlayerState)
  : list Note * bool :=
  match newState, oldState with
  | Idle, Active _ r =>
      ([SongEnded (reference (metadata r)) (details (metadata r))], true)
  | Active Playing r, _ =>
      ([SongStarted (reference (metadata r)) (details (metadata r))], false)
  | _, _ => ([], false)
  end.

(** [processQueue], with a fuel argument bounding its recursion: each
    recursive call is made after [queue.shift()], so the length of the
    queue plus one is always enough (see [processQueue]). *)
Fixpoint processQueue_fuel (fuel : nat) (self : Session) : Session * list Note :=
  match fuel with
  | O => (self, [])
  | S f =>
    if queueLock self || negb (isIdle (audioPlayer self))
       || Nat.eqb (List.length (queue self)) 0
    then (self, [])
    else
      match queue self with
      | [] => (self, [])
      | nextTrack :: rest =>
        (* this.queueLock = true; this.queue.shift() *)
        let self1 := mkSession rest true (audioPlayer self) in
        match play (audioResource nextTrack) with
        | inr (r, p') =>
          (* the player's state setter runs the listener synchronously *)
          let (ns, drain) := onPlayerStateChange (audioPlayer self1) p' in
          let self2 := mkSession rest true p' in
          let (self3, ns3) := if drain then processQueue_fuel f self2 else (self2, []) in
          (* this.queueLock = false *)
          (mkSession (queue self3) false (audioPlayer self3), Played r :: ns ++ ns3)
        | inl err =>
          (* emit playingError; this.queueLock = false; return this.processQueue() *)
          let self2 := mkSession rest false (audioPlayer self1) in
          let (self3, ns3) := processQueue_fuel f self2 in
          (self3, PlayingError (option_map (fun r => reference (metadata r))
                                           (audioResource nextTrack)) err :: ns3)
        end
      end
  end.

Definition processQueue (self : Session) : Session * list Note :=
  processQueue_fuel (S (List.length (queue self))) self.

(** Setting the player's state: the listener runs, and may call
    [processQueue]. *)
Definition setPlayerState (self : Session) (newState : AudioPlayerState)
  : Session * list Note :=
  let (ns, drain) := onPlayerStateChange (audioPlayer self) newState in
  let self1 := mkSession (queue self) (queueLock self) newState in
  if drain then let (self2, ns2) := processQueue self1 in (self2, ns ++ ns2)
  else (self1, ns).

Definition enqueue (self : Session) (track : Track) : Session * list Note :=
  processQueue (mkSession (queue self ++ [track]) (queueLock self) (audioPlayer self)).

(** [stop]: lock, empty the queue, then [audioPlayer.stop(true)], which
    does nothing on an idle player and otherwise forces it to [Idle]. *)
Definition stop (self : Session) : Session * list Note :=
  let self1 := mkSession [] true (audioPlayer self) in
  match audioPlayer self1 with
  | Idle => (self1, [])
  | Active _ _ => setPlayerState self1 Idle
  end.

(** Events a session receives: the two public calls, and the player's own
    state changes (the library moves a non-idle player between its active
    statuses, and to [Idle] when the resource ends). *)
Inductive SessionEvent :=
| EvEnqueue (t : Track)
| EvStop
| EvPlayerStatus (st : ActiveStatus)
| EvPlayerIdle.

Definition step (self : Session) (e : SessionEvent) : Session * list Note :=
  match e with
  | EvEnqueue t => enqueue self t
  | EvStop => stop self
  | EvPlayerStatus st =>
      match audioPlayer self with
      | Idle => (self, [])
      | Active _ r => setPlayerState self (Active st r)
      end
  | EvPlayerIdle =>
      match audioPlayer self with
      | Idle => (self, [])
      | Active _ _ => setPlayerState self Idle
      end
  end.

Fixpoint run (self : Session) (evs : list SessionEvent) : Session * list Note :=
  match evs with
  | [] => (self, [])
  | e :: evs' =>
      let (s1, ns1) := step self e in
      let (s2, ns2) := run s1 evs' in
      (s2, ns1 ++ ns2)
  end.

Fixpoint enqueued (evs : list SessionEvent) : list Track :=
  match evs with
  | [] => []
  | EvEnqueue t :: evs' => t :: enqueued evs'
  | _ :: evs' => enqueued evs'
  end.

Fixpoint played (ns : list Note) : list AudioResource :=
  match ns with
  | [] => []
  | Played r :: ns' => r :: played ns'
  | _ :: ns' => played ns'
  end.

(** At most one resource is handed to the player at a time: [busy] is the
    resource handed off last and not yet ended. A hand-off needs an idle
    player; [songStarted] and [songEnded] carry the metadata of the busy
    resource, and [songEnded] frees the player. *)
Fixpoint single_flight (busy : option AudioResource) (ns : list Note) : Prop :=
  match ns with
  | [] => True
  | Played r :: ns' => busy = None /\ single_flight (Some r) ns'
  | SongStarted ref d :: ns' =>
      (exists r, busy = Some r /\ ref = reference (metadata r) /\ d = details (metadata r))
      /\ single_flight busy ns'
  | SongEnded ref d :: ns' =>
      (exists r, busy = Some r /\ ref = reference (metadata r) /\ d = details (metadata r))
      /\ single_flight None ns'
  | PlayingError _ _ :: ns' => single_flight busy ns'
  end.

(* ------------------------------------------------------------------ *)
(** ** The voice-connection supervisor (constructor of MusicSubscription) *)

Inductive VoiceConnectionDisconnectReason :=
| WebSocketClose (closeCode : Z)
| AdapterUnavailable
| EndpointRemoved
| Manual.

Inductive VoiceConnectionStatus :=
| Signalling
| Connecting
| Ready
| Disconnected (reason : VoiceConnectionDisconnectReason)
| Destroyed.

(** Status kinds, as compared by [entersState] and [!==]. *)
Definition status_kind (s : VoiceConnectionStatus) : nat :=
  match s with
  | Signalling => 0 | Connecting => 1 | Ready => 2
  | Disconnected _ => 3 | Destroyed => 4
  end%nat.

Definition same_status (a b : VoiceConnectionStatus) : bool :=
  Nat.eqb (status_kind a) (status_kind b).

(** One [stateChange] of the connection: when it happens (ms), the new
    state, and the connection's [rejoinAttempts] at that moment. *)
Record ConnChange := {
  at_ms : Z;
  newStatus : VoiceConnectionStatus;
  rejoinAttempts : Z
}.

Inductive ConnAction :=
| Destroy          (* voiceConnection.destroy() *)
| Rejoin           (* voiceConnection.rejoin() *)
| StopSubscription (* this.stop() *).

(** [entersState(connection, status, timeout)] called at [t0] while the
    connection is in [cur], with the later changes [later]: the time it
    resolves, or [None] when the timeout rejects it. A change counts when
    it happens before the timer fires. *)
Definition entersState (cur target : VoiceConnectionStatus) (t0 timeout : Z)
    (later : list ConnChange) : option Z :=
  if same_status cur target then Some t0
  else
    match find (fun c => same_status (newStatus c) target && (at_ms c <? t0 + timeout))
               later with
    | Some c => Some (at_ms c)
    | None => None
    end.

(** [voiceConnection.state.status] at time [t]: the last change before
    [t], else [cur]. *)
Fixpoint statusAt (cur : VoiceConnectionStatus) (later : list ConnChange) (t : Z)
  : VoiceConnectionStatus :=
  match later with
  | [] => cur
  | c :: later' => if at_ms c <? t then statusAt (newStatus c) later' t else cur
  end.

(** [readyLock] is set when a ready-bound starts and cleared in its
    [finally], i.e. when its [entersState] settles. [readyUntil] is that
    settle time; the lock is held strictly before it. *)
Definition readyLockAt (readyUntil : option Z) (t : Z) : bool :=
  match readyUntil with
  | Some u => t <? u
  | None => false
  end.

Definition is_4014 (s : VoiceConnectionStatus) : bool :=
  match s with
  | Disconnected (WebSocketClose code) => Z.eqb code 4014
  | _ => false
  end.

(** The connection's [stateChange] listener, on change [c] followed by
    [later]: the new [readyLock] settle time, and the actions it takes,
    each with the time it is taken. *)
Definition onConnStateChange (readyUntil : option Z) (c : ConnChange)
    (later : list ConnChange) : option Z * list (Z * ConnAction) :=
  let t0 := at_ms c in
  match newStatus c with
  | Disconnected _ =>
    if is_4014 (newStatus c) then
      match entersState (newStatus c) Connecting t0 5000 later with
      | Some _ => (readyUntil, [])
      | None => (readyUntil, [(t0 + 5000, Destroy)])
      end
    else if rejoinAttempts c <? 5 then
      (readyUntil, [(t0 + (rejoinAttempts c + 1) * 5000, Rejoin)])
    else (readyUntil, [(t0, Destroy)])
  | Destroyed => (readyUntil, [(t0, StopSubscription)])
  | Connecting | Signalling =>
    if readyLockAt readyUntil t0 then (readyUntil, [])
    else
      match entersState (newStatus c) Ready t0 20000 later with
      | Some tr => (Some tr, [])
      | None =>
        let deadline := t0 + 20000 in
        (Some deadline,
         if same_status (statusAt (newStatus c) later deadline) Destroyed
         then [] else [(deadline, Destroy)])
      end
  | Ready => (readyUntil, [])
  end.

Fixpoint supervise (readyUntil : option Z) (trace : list ConnChange)
  : list (Z * ConnAction) :=
  match trace with
  | [] => []
  | c :: later =>
      let (ru, acts) := onConnStateChange readyUntil c later in
      acts ++ supervise ru later
  end.

Definition handoff_ok (t : Track) : bool :=
  match audioResource t with Some r => playable r | None => false end.

Definition busyOf (p : AudioPlayerState) : option AudioResource :=
  match p with Idle => None | Active _ r => Some r end.

(** The busy resource after a stretch of notes (see [single_flight]). *)
Fixpoint sf_end (busy : option AudioResource) (ns : list Note) : option AudioResource :=
  match ns with
  | [] => busy
  | Played r :: ns' => sf_end (Some r) ns'
  | SongEnded _ _ :: ns' => sf_end None ns'
  | _ :: ns' => sf_end busy ns'
  end.

(* ------------------------------------------------------------------ *)
(** ** isURL (src/src/Track.ts): the regular expression [urlRegex] of the
    source, an optional [https?://], then [[\da-z.-]+], a dot, [[a-z.]{2,6}],
    any number of repetitions of a star of [[/\w.-]], and an optional final
    slash, anchored at both ends; matched with Brzozowski derivatives. [test] with both anchors accepts exactly
    the strings of the expression's language; strings are ASCII here. *)

Inductive regex :=
| RNone
| REps
| RChr (p : ascii -> bool)
| RCat (r s : regex)
| RAlt (r s : regex)
| RStar (r : regex).

Fixpoint nullable (r : regex) : bool :=
  match r with
  | RNone => false
  | REps => true
  | RChr _ => false
  | RCat r s => nullable r && nullable s
  | RAlt r s => nullable r || nullable s
  | RStar _ => true
  end.

Fixpoint deriv (c : ascii) (r : regex) : regex :=
  match r with
  | RNone => RNone
  | REps => RNone
  | RChr p => if p c then REps else RNone
  | RCat r s => RAlt (RCat (deriv c r) s) (if nullable r then deriv c s else RNone)
  | RAlt r s => RAlt (deriv c r) (deriv c s)
  | RStar r => RCat (deriv c r) (RStar r)
  end.

Fixpoint regex_test (r : regex) (s : string) : bool :=
  match s with
  | EmptyString => nullable r
  | String c s' => regex_test (deriv c r) s'
  end.

Definition in_range (lo hi : ascii) (c : ascii) : bool :=
  Nat.leb (nat_of_ascii lo) (nat_of_ascii c) && Nat.leb (nat_of_ascii c) (nat_of_ascii hi).

Definition is_char (a : ascii) (c : ascii) : bool := Ascii.eqb a c.

(** [\d], [a-z], [\w] *)
Definition cls_digit := in_range "0"%char "9"%char.
Definition cls_lower := in_range "a"%char "z"%char.
Definition cls_word (c : ascii) : bool :=
  in_range "A"%char "Z"%char c || cls_lower c || cls_digit c || is_char "_"%char c.

Fixpoint lit (s : string) : regex :=
  match s with
  | EmptyString => REps
  | String c s' => RCat (RChr (is_char c)) (lit s')
  end.

Definition ropt (r : regex) : regex := RAlt REps r.

Definition urlRegex : regex :=
  let host := RChr (fun c => cls_digit c || cls_lower c || is_char "."%char c
                             || is_char "-"%char c) in
  let tld := RChr (fun c => cls_lower c || is_char "."%char c) in
  let path := RChr (fun c => is_char "/"%char c || cls_word c || is_char "."%char c
                             || is_char "-"%char c) in
  RCat (ropt (RCat (lit "http") (RCat (ropt (lit "s")) (lit "://"))))
  (RCat (RCat host (RStar host))
  (RCat (lit ".")
  (RCat (RCat tld (RCat tld (RCat (ropt tld) (RCat (ropt tld) (RCat (ropt tld) (ropt tld))))))
  (RCat (RStar (RStar path))
        (ropt (lit "/")))))).

Definition isURL (text : string) : bool := regex_test urlRegex text.

(* ------------------------------------------------------------------ *)
(** ** Track.create and its helpers (src/src/Track.ts)

    The outside world is an environment: the YouTube search page read by
    puppeteer, [ytdl.getBasicInfo], and the audio stream with its
    [demuxProbe]. Each either fails with a message or answers. *)

Record VideoDetails := {
  vd_title : string;
  (** [Number(videoDetails.lengthSeconds)]: ytdl gives a string of digits *)
  vd_lengthSeconds : Z;
  vd_authorName : string;
  vd_authorUser : string;
  vd_thumbnailUrls : list string
}.

Record YtEnv := {
  (** [page.$eval('a#video-title', e => e.getAttribute('href'))] on the
      results page: an error (navigation, selector timeout), or the
      attribute, [None] when it is missing ([null]). *)
  searchHref : string -> string + option string;
  (** [ytdl.getBasicInfo(url)]; [url] is [undefined] when [None]. *)
  getBasicInfo : option string -> string + VideoDetails;
  (** The ytdl stream of [url] becomes readable and [demuxProbe] succeeds,
      or an error message. *)
  probeStream : option string -> string + unit
}.

(** The result of awaiting a promise: resolved, rejected, or never
    settled. *)
Inductive Outcome (A : Type) :=
| Resolved (a : A)
| Rejected (msg : string)
| Pending.
Arguments Resolved {A} a.
Arguments Rejected {A} msg.
Arguments Pending {A}.

Section TrackCreate.
Local Open Scope string_scope.

(** String concatenation with a [string | null] operand. *)
Definition concat_nullable (a : string) (b : option string) : string :=
  match b with Some b' => a ++ b' | None => a ++ "null" end.

(** [fetchURL]: the URL of the first search result. *)
Definition fetchURL (env : YtEnv) (query_ : string) : Outcome string :=
  match searchHref env query_ with
  | inl msg => Rejected msg
  | inr href => Resolved (concat_nullable "https://www.youtube.com" href)
  end.

(** The message of the TypeError thrown by [thumbnails[0].url] when the
    list is empty. *)
Definition undefined_url_message : string :=
  "Cannot read properties of undefined (reading 'url')".

(** [fetchMetadata]: rejects with ["Metadata fetch error: " + message]. *)
Definition fetchMetadata (env : YtEnv) (url_ : option string)
  : string + TrackMetadataDetails :=
  match getBasicInfo env url_ with
  | inl msg => inl ("Metadata fetch error: " ++ msg)
  | inr vd =>
    match vd_thumbnailUrls vd with
    | [] => inl ("Metadata fetch error: " ++ undefined_url_message)
    | th :: _ =>
      inr {| title := vd_title vd;
             duration := durationWrapper (vd_lengthSeconds vd);
             uploadedBy := vd_authorName vd ++ "(" ++ vd_authorUser vd ++ ")";
             coverArt := th |}
    end
  end.

(** [createAudioResource]: the promise is built with an [async] executor,
    so a rejection of [await this.fetchMetadata(url)] is thrown inside the
    executor and the returned promise never settles. A fresh resource has
    not ended and has not started. *)
Definition createAudioResource (env : YtEnv) (reference_ : Reference) (url_ : option string)
  : Outcome AudioResource :=
  match fetchMetadata env url_ with
  | inl _ => Pending
  | inr details_ =>
    match probeStream env url_ with
    | inl msg => Rejected msg
    | inr tt =>
      Resolved {| metadata := {| reference := reference_; details := details_ |};
                  playable := true; started := false |}
    end
  end.

Definition with_url (t : Track) (u : option string) : Track :=
  {| query := query t; url := u; audioResource := audioResource t;
     track_reference := track_reference t |}.

Definition with_audioResource (t : Track) (r : option AudioResource) : Track :=
  {| query := query t; url := url t; audioResource := r;
     track_reference := track_reference t |}.

(** [Track.create(query, reference)]. *)
Definition create (env : YtEnv) (query_ : string) (reference_ : Reference) : Outcome Track :=
  let track := {| query := query_; url := None; audioResource := None;
                  track_reference := reference_ |} in
  let fetched :=
    if negb (isURL query_) then
      match fetchURL env query_ with
      | Resolved u => Resolved (with_url track (Some u))
      | Rejected m => Rejected m
      | Pending => Pending
      end
    else Resolved track in
  match fetched with
  | Resolved t1 =>
    match createAudioResource env (track_reference t1) (url t1) with
    | Resolved r => Resolved (with_audioResource t1 (Some r))
    | Rejected m => Rejected m
    | Pending => Pending
    end
  | Rejected m => Rejected m
  | Pending => Pending
  end.

End TrackCreate.

(** Characters a string accepted by [isURL] can contain: ASCII letters,
    digits, ['_'], ['.'], ['-'], ['/'] and [':']. *)
Definition url_char (c : ascii) : bool :=
  cls_word c || is_char "."%char c || is_char "-"%char c || is_char "/"%char c
  || is_char ":"%char c.

(** Every character class of [r] only accepts characters satisfying [P]. *)
Fixpoint classes_within (P : ascii -> bool) (r : regex) : Prop :=
  match r with
  | RNone | REps => True
  | RChr p => forall c, p c = true -> P c = true
  | RCat r s | RAlt r s => classes_within P r /\ classes_within P s
  | RStar r => classes_within P r
  end.

(** A syntactic sufficient condition for an empty language. *)
Fixpoint dead (r : regex) : Prop :=
  match r with
  | RNone => True
  | REps | RChr _ | RStar _ => False
  | RCat r _ => dead r
  | RAlt r s => dead r /\ dead s
  end.

(** A session that is not stopped and not stalled: the lock is free, and
    tracks only wait while the player is busy. *)
Definition drained (s : Session) : Prop :=
  queueLock s = false /\ (audioPlayer s = Idle -> queue s = []).

Definition is_destroyed_change (c : ConnChange) : bool :=
  match newStatus c with Destroyed => true | _ => false end.

Definition is_disconnect_change (c : ConnChange) : bool :=
  match newStatus c with Disconnected _ => true | _ => false end.

Definition is_stop_action (a : Z * ConnAction) : bool :=
  match snd a with StopSubscription => true | _ => false end.

Definition is_destroy_action (a : Z * ConnAction) : bool :=
  match snd a with Destroy => true | _ => false end.

Definition at_before (a b : ConnChange) : Prop := at_ms a < at_ms b.

Definition destroy_times (acts : list (Z * ConnAction)) : list Z :=
  map fst (filter is_destroy_action acts).

(** The early-return condition of [processQueue]. *)
Definition guard (s : Session) : bool :=
  queueLock s || negb (isIdle (audioPlayer s)) || Nat.eqb (List.length (queue s)) 0.

(** A stretch of notes that keeps the single-flight discipline and leaves
    the busy resource equal to the player's. *)
Definition sf_step (p : AudioPlayerState) (res : Session * list Note) : Prop :=
  single_flight (busyOf p) (snd res)
  /\ sf_end (busyOf p) (snd res) = busyOf (audioPlayer (fst res)).

Definition from_tracks (ts : list Track) (r : AudioResource) : Prop :=
  exists t, In t ts /\ audioResource t = Some r.

(** One step preserves FIFO order and the origin of handed-off resources. *)
Definition step_inv (s : Session) (e : SessionEvent) (res : Session * list Note) : Prop :=
  incl (queue (fst res)) (queue s ++ enqueued [e])
  /\ Forall (from_tracks (queue s ++ enqueued [e])) (played (snd res))
  /\ (e <> EvStop -> Forall (fun t => handoff_ok t = true) (queue s ++ enqueued [e]) ->
      map Some (played (snd res)) ++ map audioResource (queue (fst res))
      = map audioResource (queue s ++ enqueued [e])).

(** The changes that settle a wait for [target] started at [t0]. *)
Definition seen_within (target : VoiceConnectionStatus) (t0 timeout : Z) (c : ConnChange) : bool :=
  same_status (newStatus c) target && (at_ms c <? t0 + timeout).

(** Sample values, used to run the definitions on concrete inputs. *)
Definition sample_details (n : Z) : TrackMetadataDetails :=
  {| title := "song"; duration := durationWrapper n; uploadedBy := "someone(user)";
     coverArt := "https://i.ytimg.com/cover.jpg" |}%string.

Definition sample_resource (ref : Reference) (ok : bool) : AudioResource :=
  {| metadata := {| reference := ref; details := sample_details 65 |};
     playable := ok; started := false |}.

Definition sample_track (ref : Reference) (ok : bool) : Track :=
  {| query := "some query"%string; url := Some "https://www.youtube.com/watch?v=x"%string;
     audioResource := Some (sample_resource ref ok);
     track_reference := ref |}.

Definition sample_change (t : Z) (st : VoiceConnectionStatus) (n : Z) : ConnChange :=
  {| at_ms := t; newStatus := st; rejoinAttempts := n |}.

(** A YouTube environment where every search finds the same video and
    its stream probes fine; [thumbs] are the video's thumbnail URLs. *)
Definition sample_env (thumbs : list string) : YtEnv :=
  {| searchHref := fun _ => inr (Some "/watch?v=dQw4w9WgXcQ"%string);
     getBasicInfo := fun _ =>
       inr {| vd_title := "Never Gonna Give You Up"%string; vd_lengthSeconds := 213;
              vd_authorName := "Rick Astley"%string; vd_authorUser := "RickAstleyVEVO"%string;
              vd_thumbnailUrls := thumbs |};
     probeStream := fun _ => inr tt |}.

(* ================================================================== *)
(** * Proofs *)

Module QueueFacts.

Lemma play_inr res r p' :
  play res = inr (r, p') ->
  res = Some r /\ playable r = true
  /\ p' = Active (if started r then Playing else Buffering) r.
Proof.
  destruct res as [r0|]; simpl; [|discriminate].
  destruct (playable r0) eqn:E; [|discriminate].
  intros H; inversion H; subst; auto.
Qed.


Lemma listener_active_no_drain o st r :
  snd (onPlayerStateChange o (Active st r)) = false.
Proof. destruct o, st; reflexivity. Qed.

Lemma listener_active o st r :
  onPlayerStateChange o (Active st r)
  = (match st with
     | Playing => [SongStarted (reference (metadata r)) (details (metadata r))]
     | _ => []
     end, false).
Proof. destruct o, st; reflexivity. Qed.

Lemma listener_idle st r :
  onPlayerStateChange (Active st r) Idle
  = ([SongEnded (reference (metadata r)) (details (metadata r))], true).
Proof. reflexivity. Qed.

(** The fuel does not matter once it exceeds the length of the queue. *)
Lemma processQueue_fuel_stable f1 f2 s :
  (List.length (queue s) < f1)%nat -> (List.length (queue s) < f2)%nat ->
  processQueue_fuel f1 s = processQueue_fuel f2 s.
Proof.
  revert f2 s; induction f1 as [|f1 IH]; intros f2 s H1 H2; [lia|].
  destruct f2 as [|f2]; [lia|].
  simpl.
  destruct (queueLock s || negb (isIdle (audioPlayer s))
            || Nat.eqb (List.length (queue s)) 0); [reflexivity|].
  destruct (queue s) as [|t rest] eqn:Q; [reflexivity|].
  simpl in H1, H2.
  destruct (play (audioResource t)) as [err|[r p']] eqn:P.
  - rewrite (IH f2 (mkSession rest false (audioPlayer s))); simpl; auto; lia.
  - apply play_inr in P as (_ & _ & ->).
    rewrite listener_active. reflexivity.
Qed.

Lemma processQueue_fuel_eq f s :
  (List.length (queue s) < f)%nat -> processQueue_fuel f s = processQueue s.
Proof. intros H; apply processQueue_fuel_stable; simpl; lia. Qed.

Lemma processQueue_guard s : guard s = true -> processQueue s = (s, []).
Proof. unfold processQueue, guard; simpl; intros ->; reflexivity. Qed.

Lemma processQueue_success s t rest r p' :
  queueLock s = false -> audioPlayer s = Idle -> queue s = t :: rest ->
  play (audioResource t) = inr (r, p') ->
  processQueue s = (mkSession rest false p', Played r :: fst (onPlayerStateChange Idle p')).
Proof.
  intros L I Q P. unfold processQueue. rewrite Q. simpl.
  rewrite L, I, Q, P. simpl.
  apply play_inr in P as (_ & _ & ->).
  rewrite listener_active. simpl. rewrite app_nil_r. reflexivity.
Qed.

Lemma processQueue_failure s t rest err :
  queueLock s = false -> audioPlayer s = Idle -> queue s = t :: rest ->
  play (audioResource t) = inl err ->
  processQueue s =
    let (s3, ns3) := processQueue (mkSession rest false Idle) in
    (s3, PlayingError (option_map (fun r => reference (metadata r)) (audioResource t)) err
         :: ns3).
Proof.
  intros L I Q P.
  assert (E : processQueue_fuel (S (List.length rest)) (mkSession rest false Idle)
              = processQueue (mkSession rest false Idle)) by reflexivity.
  unfold processQueue at 1. rewrite Q.
  change (S (List.length (t :: rest))) with (S (S (List.length rest))).
  remember (S (List.length rest)) as g eqn:Hg.
  simpl. rewrite L, I, Q, P. simpl. rewrite E. reflexivity.
Qed.

End QueueFacts.

Module QueueTheorems.
Import QueueFacts.

Lemma processQueue_fuel_suffix f s :
  exists pre, queue s = pre ++ queue (fst (processQueue_fuel f s)).
Proof.
  revert s; induction f as [|f IH]; intros s; [exists []; reflexivity|].
  simpl.
  destruct (queueLock s || negb (isIdle (audioPlayer s))
            || Nat.eqb (List.length (queue s)) 0); [exists []; reflexivity|].
  destruct (queue s) as [|t rest] eqn:Q; [exists []; simpl; rewrite Q; reflexivity|].
  destruct (play (audioResource t)) as [err|[r p']] eqn:P.
  - destruct (IH (mkSession rest false (audioPlayer s))) as [pre Hpre].
    destruct (processQueue_fuel f (mkSession rest false (audioPlayer s))) as [s3 ns3].
    exists (t :: pre). simpl in *. rewrite Hpre. reflexivity.
  - apply play_inr in P as (_ & _ & ->). rewrite listener_active.
    exists [t]. reflexivity.
Qed.

Lemma processQueue_shrinks s :
  guard s = false ->
  (List.length (queue (fst (processQueue s))) < List.length (queue s))%nat.
Proof.
  unfold guard. intros G.
  apply orb_false_iff in G as [G E0]. apply orb_false_iff in G as [L I].
  destruct (audioPlayer s) eqn:Pl; [|discriminate].
  destruct (queue s) as [|t rest] eqn:Q; [discriminate|].
  destruct (play (audioResource t)) as [err|[r p']] eqn:P.
  - rewrite (processQueue_failure s t rest err L Pl Q P).
    destruct (processQueue_fuel_suffix (S (List.length rest)) (mkSession rest false Idle))
      as [pre Hpre].
    change (processQueue_fuel (S (List.length rest)) (mkSession rest false Idle))
      with (processQueue (mkSession rest false Idle)) in Hpre.
    destruct (processQueue (mkSession rest false Idle)) as [s3 ns3] eqn:R.
    cbn [fst queue List.length] in Hpre |- *. rewrite Hpre, length_app. lia.
  - rewrite (processQueue_success s t rest r p' L Pl Q P). simpl. lia.
Qed.

(** C2: [processQueue] returns at once, leaving the session as it is and
    emitting nothing, exactly when the queue is locked, the player is not
    idle, or the queue is empty. Otherwise it takes the lock, shifts the
    head track off the queue and hands its resource to the player; when
    the hand-off succeeds the lock is released and the rest of the queue
    stays in place. *)
Theorem processQueue_noop_iff_guard (s : Session) :
  (processQueue s = (s, []) <->
     queueLock s = true \/ audioPlayer s <> Idle \/ queue s = [])
  /\ (forall t rest r,
        queueLock s = false -> audioPlayer s = Idle -> queue s = t :: rest ->
        audioResource t = Some r -> playable r = true ->
        processQueue s =
          (mkSession rest false (Active (if started r then Playing else Buffering) r),
           Played r :: (if started r
                        then [SongStarted (reference (metadata r)) (details (metadata r))]
                        else []))).
Proof.
  split.
  - split.
    + intros E.
      destruct (guard s) eqn:G.
      * unfold guard in G.
        destruct (queueLock s) eqn:L; [left; reflexivity|].
        destruct (audioPlayer s) eqn:Pl.
        -- right; right. destruct (queue s); [reflexivity|discriminate].
        -- right; left; discriminate.
      * pose proof (processQueue_shrinks s G) as H. rewrite E in H. simpl in H. lia.
    + intros H. apply processQueue_guard. unfold guard.
      destruct H as [->|[H| ->]]; [reflexivity| |simpl; rewrite !orb_true_r; reflexivity].
      destruct (audioPlayer s); [congruence|].
      simpl. rewrite orb_true_r. reflexivity.
  - intros t rest r L I Q A Pl.
    assert (P : play (audioResource t)
                = inr (r, Active (if started r then Playing else Buffering) r))
      by (rewrite A; simpl; rewrite Pl; reflexivity).
    rewrite (processQueue_success s t rest r _ L I Q P).
    rewrite listener_active. destruct (started r); reflexivity.
Qed.

(** C3: a run of tracks whose hand-off fails at the head of the queue is
    consumed one by one: for each, [playingError] is emitted with the
    track's own reference and the error, the lock is released and the
    next track is attempted. The queue then continues with exactly the
    tracks after the failed ones, none of which is put back. *)
Theorem processQueue_skips_failures (s : Session) (fs rest : list Track) :
  queueLock s = false -> audioPlayer s = Idle -> queue s = fs ++ rest ->
  Forall (fun t => track_created t /\ handoff_ok t = false) fs ->
  processQueue s =
    let (s', ns) := processQueue (mkSession rest false Idle) in
    (s', map (fun t => PlayingError (Some (track_reference t)) NotPlayable) fs ++ ns).
Proof.
  revert s; induction fs as [|t fs IH]; intros s L I Q F.
  - simpl in Q. destruct s as [q lk p]; simpl in *; subst.
    destruct (processQueue (mkSession rest false Idle)); reflexivity.
  - inversion F as [|? ? [[r [A R]] H] F']; subst.
    unfold handoff_ok in H. rewrite A in H.
    assert (P : play (audioResource t) = inl NotPlayable)
      by (rewrite A; simpl; rewrite H; reflexivity).
    rewrite (processQueue_failure s t (fs ++ rest) NotPlayable L I Q P).
    rewrite (IH (mkSession (fs ++ rest) false Idle)) by (reflexivity || assumption).
    rewrite A. simpl. rewrite R.
    destruct (processQueue (mkSession rest false Idle)); reflexivity.
Qed.

End QueueTheorems.

Module TraceFacts.
Import QueueFacts QueueTheorems.

Lemma processQueue_fuel_S f s :
  processQueue_fuel (S f) s =
  if guard s then (s, [])
  else match queue s with
       | [] => (s, [])
       | t :: rest =>
         match play (audioResource t) with
         | inr (r, p') => (mkSession rest false p', Played r :: fst (onPlayerStateChange Idle p'))
         | inl err =>
           let (s3, ns3) := processQueue_fuel f (mkSession rest false (audioPlayer s)) in
           (s3, PlayingError (option_map (fun r => reference (metadata r)) (audioResource t))
                             err :: ns3)
         end
       end.
Proof.
  unfold guard; simpl.
  destruct (queueLock s) eqn:L; [reflexivity|].
  destruct (audioPlayer s) eqn:Pl; [|reflexivity].
  destruct (queue s) as [|t rest]; [reflexivity|]. simpl.
  destruct (play (audioResource t)) as [err|[r p']] eqn:P; [reflexivity|].
  apply play_inr in P as (_ & _ & ->). rewrite listener_active.
  simpl. rewrite app_nil_r. reflexivity.
Qed.

Lemma guard_false s :
  guard s = false -> queueLock s = false /\ audioPlayer s = Idle /\ queue s <> [].
Proof.
  unfold guard. destruct (queueLock s), (audioPlayer s), (queue s); simpl;
    intuition discriminate.
Qed.

Lemma sf_app b ns1 ns2 :
  single_flight b ns1 -> single_flight (sf_end b ns1) ns2 ->
  single_flight b (ns1 ++ ns2).
Proof.
  revert b; induction ns1 as [|n ns1 IH]; intros b H1 H2; [exact H2|].
  destruct n; simpl in *; intuition.
Qed.

Lemma sf_end_app b ns1 ns2 : sf_end b (ns1 ++ ns2) = sf_end (sf_end b ns1) ns2.
Proof.
  revert b; induction ns1 as [|n ns1 IH]; intros b; [reflexivity|].
  destruct n; simpl; apply IH.
Qed.

Lemma played_app ns1 ns2 : played (ns1 ++ ns2) = played ns1 ++ played ns2.
Proof.
  induction ns1 as [|n ns1 IH]; [reflexivity|]. destruct n; simpl; f_equal; auto.
Qed.

Lemma sf_step_play r :
  playable r = true ->
  single_flight None (Played r :: fst (onPlayerStateChange Idle
                                        (Active (if started r then Playing else Buffering) r)))
  /\ sf_end None (Played r :: fst (onPlayerStateChange Idle
                                     (Active (if started r then Playing else Buffering) r)))
     = Some r.
Proof.
  intros _. destruct (started r); simpl; repeat split; eauto.
Qed.

Lemma processQueue_fuel_sf f s : sf_step (audioPlayer s) (processQueue_fuel f s).
Proof.
  revert s; induction f as [|f IH]; intros s; [split; reflexivity|].
  rewrite processQueue_fuel_S.
  destruct (guard s) eqn:G; [split; reflexivity|].
  apply guard_false in G as (L & I & Q).
  destruct (queue s) as [|t rest]; [split; reflexivity|].
  destruct (play (audioResource t)) as [err|[r p']] eqn:P.
  - specialize (IH (mkSession rest false (audioPlayer s))).
    destruct (processQueue_fuel f (mkSession rest false (audioPlayer s))) as [s3 ns3].
    exact IH.
  - apply play_inr in P as (_ & Pl & ->). rewrite I.
    apply sf_step_play; assumption.
Qed.

Lemma processQueue_sf s : sf_step (audioPlayer s) (processQueue s).
Proof. apply processQueue_fuel_sf. Qed.

Lemma setPlayerState_sf s st r :
  audioPlayer s = Active st r ->
  sf_step (audioPlayer s) (setPlayerState s Idle).
Proof.
  intros Pl. unfold setPlayerState. rewrite Pl, listener_idle.
  pose proof (processQueue_sf (mkSession (queue s) (queueLock s) Idle)) as [H1 H2].
  destruct (processQueue (mkSession (queue s) (queueLock s) Idle)) as [s2 ns2].
  simpl in *. unfold sf_step; simpl. split; [split; [eauto|exact H1] | exact H2].
Qed.

Lemma step_sf s e : sf_step (audioPlayer s) (step s e).
Proof.
  destruct e as [t| |st|]; simpl.
  - apply (processQueue_sf (mkSession (queue s ++ [t]) (queueLock s) (audioPlayer s))).
  - unfold stop. simpl. destruct (audioPlayer s) as [|st r] eqn:Pl; [unfold sf_step; simpl; rewrite ?Pl; split; reflexivity|].
    apply (setPlayerState_sf (mkSession [] true (Active st r)) st r). reflexivity.
  - destruct (audioPlayer s) as [|st0 r] eqn:Pl; [unfold sf_step; simpl; rewrite ?Pl; split; reflexivity|].
    unfold setPlayerState. rewrite Pl, listener_active.
    destruct st; unfold sf_step; simpl; repeat split; eauto.
  - destruct (audioPlayer s) as [|st r] eqn:Pl; [unfold sf_step; simpl; rewrite ?Pl; split; reflexivity|].
    rewrite <- Pl. apply (setPlayerState_sf s st r Pl).
Qed.

Lemma run_sf s evs : single_flight (busyOf (audioPlayer s)) (snd (run s evs)).
Proof.
  revert s; induction evs as [|e evs IH]; intros s; [exact I|].
  simpl. pose proof (step_sf s e) as [H1 H2].
  destruct (step s e) as [s1 ns1]. specialize (IH s1).
  destruct (run s1 evs) as [s2 ns2]. simpl in *.
  apply sf_app; [exact H1|]. rewrite H2. exact IH.
Qed.

End TraceFacts.

Module FifoFacts.
Import QueueFacts QueueTheorems TraceFacts.

Lemma from_tracks_incl ts ts' r : incl ts ts' -> from_tracks ts r -> from_tracks ts' r.
Proof. intros H [t [I A]]. exists t; auto. Qed.

Lemma listener_played o n : played (fst (onPlayerStateChange o n)) = [].
Proof. destruct n as [|[] ?], o; reflexivity. Qed.

Lemma processQueue_fuel_fifo f s :
  Forall (fun t => handoff_ok t = true) (queue s) ->
  map Some (played (snd (processQueue_fuel f s))) ++ map audioResource (queue (fst (processQueue_fuel f s)))
  = map audioResource (queue s).
Proof.
  revert s; induction f as [|f IH]; intros s F; [reflexivity|].
  rewrite processQueue_fuel_S.
  destruct (guard s); [reflexivity|].
  destruct (queue s) as [|t rest] eqn:Q; [simpl; rewrite Q; reflexivity|].
  inversion F as [|? ? Ok F']; subst.
  destruct (play (audioResource t)) as [err|[r p']] eqn:P.
  - unfold handoff_ok in Ok. destruct (audioResource t) as [r|]; [|discriminate].
    simpl in P. rewrite Ok in P. discriminate.
  - apply play_inr in P as (A & _ & ->). simpl.
    rewrite A. destruct (started r); reflexivity.
Qed.

Lemma processQueue_fuel_origin f s :
  Forall (from_tracks (queue s)) (played (snd (processQueue_fuel f s))).
Proof.
  revert s; induction f as [|f IH]; intros s; [constructor|].
  rewrite processQueue_fuel_S.
  destruct (guard s); [constructor|].
  destruct (queue s) as [|t rest] eqn:Q; [constructor|].
  destruct (play (audioResource t)) as [err|[r p']] eqn:P.
  - specialize (IH (mkSession rest false (audioPlayer s))).
    destruct (processQueue_fuel f (mkSession rest false (audioPlayer s))) as [s3 ns3].
    simpl in *. eapply Forall_impl; [|exact IH].
    intros r; apply from_tracks_incl. intros x Hx; right; exact Hx.
  - apply play_inr in P as (A & _ & ->). simpl.
    destruct (started r); simpl;
      (constructor; [exists t; split; [left|]; auto|constructor]).
Qed.

Lemma processQueue_incl s : incl (queue (fst (processQueue s))) (queue s).
Proof.
  destruct (processQueue_fuel_suffix (S (List.length (queue s))) s) as [pre H].
  fold (processQueue s) in H. rewrite H. intros x Hx. apply in_or_app; right; exact Hx.
Qed.

Lemma setPlayerState_idle s st r :
  audioPlayer s = Active st r ->
  setPlayerState s Idle =
    let (s2, ns2) := processQueue (mkSession (queue s) (queueLock s) Idle) in
    (s2, SongEnded (reference (metadata r)) (details (metadata r)) :: ns2).
Proof.
  intros Pl. unfold setPlayerState. rewrite Pl, listener_idle. reflexivity.
Qed.

Lemma processQueue_inv s0 e s :
  queue s = queue s0 ++ enqueued [e] -> step_inv s0 e (processQueue s).
Proof.
  intros Q. split; [|split].
  - rewrite <- Q. apply processQueue_incl.
  - rewrite <- Q. apply processQueue_fuel_origin.
  - intros _ F. rewrite <- Q in *. apply processQueue_fuel_fifo; exact F.
Qed.

Lemma step_inv_holds s e : step_inv s e (step s e).
Proof.
  destruct e as [t| |st|]; [apply processQueue_inv; reflexivity| | |];
    unfold step_inv; simpl.
  - unfold stop. simpl. split; [|split].
    + destruct (audioPlayer s) as [|st r]; [intros x []|].
      rewrite (setPlayerState_idle (mkSession [] true (Active st r)) st r) by reflexivity.
      rewrite processQueue_guard by reflexivity. intros x [].
    + destruct (audioPlayer s) as [|st r]; [constructor|].
      rewrite (setPlayerState_idle (mkSession [] true (Active st r)) st r) by reflexivity.
      rewrite processQueue_guard by reflexivity. constructor.
    + intros H; exfalso; apply H; reflexivity.
  - rewrite app_nil_r. destruct (audioPlayer s) as [|st0 r] eqn:Pl.
    + split; [apply incl_refl|split; [constructor|intros; reflexivity]].
    + unfold setPlayerState. rewrite Pl, listener_active. simpl.
      split; [apply incl_refl|].
      split; [destruct st; constructor|intros; destruct st; reflexivity].
  - destruct (audioPlayer s) as [|st r] eqn:Pl.
    + rewrite app_nil_r. split; [apply incl_refl|split; [constructor|intros; reflexivity]].
    + rewrite (setPlayerState_idle s st r Pl).
      pose proof (processQueue_inv s EvPlayerIdle
                    (mkSession (queue s) (queueLock s) Idle)) as H.
      unfold step_inv in H. simpl in H. rewrite app_nil_r in *. specialize (H eq_refl).
      destruct (processQueue (mkSession (queue s) (queueLock s) Idle)) as [s2 ns2].
      exact H.
Qed.

Lemma run_inv s evs :
  incl (queue (fst (run s evs))) (queue s ++ enqueued evs)
  /\ Forall (from_tracks (queue s ++ enqueued evs)) (played (snd (run s evs)))
  /\ (~ In EvStop evs -> Forall (fun t => handoff_ok t = true) (queue s ++ enqueued evs) ->
      map Some (played (snd (run s evs))) ++ map audioResource (queue (fst (run s evs)))
      = map audioResource (queue s ++ enqueued evs)).
Proof.
  revert s; induction evs as [|e evs IH]; intros s.
  - simpl. rewrite app_nil_r. split; [apply incl_refl|split; [constructor|intros; reflexivity]].
  - cbn [run]. pose proof (step_inv_holds s e) as (I1 & O1 & F1).
    destruct (step s e) as [s1 ns1]. specialize (IH s1) as (I2 & O2 & F2).
    destruct (run s1 evs) as [s2 ns2]. cbn [fst snd] in *.
    assert (E : queue s ++ enqueued (e :: evs) = (queue s ++ enqueued [e]) ++ enqueued evs)
      by (destruct e; simpl; rewrite <- ?app_assoc; reflexivity).
    rewrite E. split; [|split].
    + intros x Hx. apply I2 in Hx. apply in_app_or in Hx as [Hx|Hx].
      * apply I1 in Hx. apply in_or_app; left; exact Hx.
      * apply in_or_app; right; exact Hx.
    + rewrite played_app. apply Forall_app; split.
      * eapply Forall_impl; [|exact O1]. intros r; apply from_tracks_incl.
        intros x Hx; apply in_or_app; left; exact Hx.
      * eapply Forall_impl; [|exact O2]. intros r; apply from_tracks_incl.
        intros x Hx. apply in_app_or in Hx as [Hx|Hx].
        -- apply I1 in Hx. apply in_or_app; left; exact Hx.
        -- apply in_or_app; right; exact Hx.
    + intros NS F. rewrite played_app, map_app, <- app_assoc.
      assert (F1' : Forall (fun t => handoff_ok t = true) (queue s ++ enqueued [e]))
        by (apply Forall_app in F as [F _]; exact F).
      assert (NS1 : e <> EvStop) by (intros ->; apply NS; left; reflexivity).
      rewrite F2.
      * rewrite (map_app _ (queue s ++ enqueued [e])), <- (F1 NS1 F1'), map_app.
        rewrite <- app_assoc. reflexivity.
      * intros H; apply NS; right; exact H.
      * apply Forall_app in F as [_ F]. apply Forall_app; split; [|exact F].
        rewrite Forall_forall in F1' |- *. intros x Hx. apply F1', I1, Hx.
Qed.

End FifoFacts.

Module SessionTheorems.
Import QueueFacts QueueTheorems TraceFacts FifoFacts.

Lemma stop_result s :
  stop s = (mkSession [] true Idle,
            match audioPlayer s with
            | Idle => []
            | Active _ r => [SongEnded (reference (metadata r)) (details (metadata r))]
            end).
Proof.
  unfold stop. simpl. destruct (audioPlayer s) as [|st r]; [reflexivity|].
  rewrite (setPlayerState_idle (mkSession [] true (Active st r)) st r) by reflexivity.
  rewrite processQueue_guard by reflexivity. reflexivity.
Qed.

Lemma locked_step q e :
  exists q', step (mkSession q true Idle) e = (mkSession q' true Idle, []).
Proof.
  destruct e as [t| | |]; simpl.
  - exists (q ++ [t]). unfold enqueue. apply processQueue_guard. reflexivity.
  - exists []. rewrite stop_result. reflexivity.
  - exists q; reflexivity.
  - exists q; reflexivity.
Qed.

Lemma locked_run q evs :
  exists q', run (mkSession q true Idle) evs = (mkSession q' true Idle, []).
Proof.
  revert q; induction evs as [|e evs IH]; intros q; [exists q; reflexivity|].
  simpl. destruct (locked_step q e) as [q1 ->].
  destruct (IH q1) as [q2 ->]. exists q2; reflexivity.
Qed.

Lemma locked_step_exact q e :
  step (mkSession q true Idle) e =
    (mkSession (match e with EvEnqueue t => q ++ [t] | EvStop => [] | _ => q end) true Idle, []).
Proof.
  destruct e as [t| | |]; simpl.
  - unfold enqueue. apply processQueue_guard. reflexivity.
  - rewrite stop_result. reflexivity.
  - reflexivity.
  - reflexivity.
Qed.

Lemma locked_run_append q evs :
  ~ In EvStop evs ->
  run (mkSession q true Idle) evs = (mkSession (q ++ enqueued evs) true Idle, []).
Proof.
  revert q; induction evs as [|e evs IH]; intros q NS; [rewrite app_nil_r; reflexivity|].
  simpl. rewrite locked_step_exact.
  assert (NS' : ~ In EvStop evs) by (intros H; apply NS; right; exact H).
  destruct e as [t| | |].
  - rewrite (IH (q ++ [t]) NS'). rewrite <- app_assoc. reflexivity.
  - exfalso. apply NS. left. reflexivity.
  - rewrite (IH q NS'). reflexivity.
  - rewrite (IH q NS'). reflexivity.
Qed.

(** C1: whatever enqueue calls and player state changes happen, as long
    as no hand-off fails and [stop] is not called, the resources handed to
    the player, followed by the resources still queued, are exactly the
    enqueued tracks' resources in enqueue order; and hand-offs are single
    flight: a resource is only handed to an idle player, the previous one
    having ended, and every [songStarted]/[songEnded] is about the
    resource currently handed off. *)
Theorem enqueue_order_single_flight (evs : list SessionEvent) :
  ~ In EvStop evs -> Forall (fun t => handoff_ok t = true) (enqueued evs) ->
  map Some (played (snd (run initialSession evs)))
    ++ map audioResource (queue (fst (run initialSession evs)))
  = map audioResource (enqueued evs)
  /\ single_flight None (snd (run initialSession evs)).
Proof.
  intros NS F. split.
  - destruct (run_inv initialSession evs) as (_ & _ & H). apply H; assumption.
  - apply (run_sf initialSession evs).
Qed.

(** C4 (as the code does it): [stop] empties the queue, takes the queue
    lock for good and forces the player to [Idle], emitting [songEnded]
    for the resource it was playing, if any. From then on nothing is ever
    emitted or handed off: on the locked, idle session an enqueue call
    only appends its track to the queue, a further [stop] only empties it
    and player events change nothing; so after any later events the lock
    stays held with the player idle, and if no further [stop] came the
    queue is exactly the tracks enqueued since, in order. *)
Theorem stop_locks_session (s : Session) (evs : list SessionEvent) :
  stop s = (mkSession [] true Idle,
            match audioPlayer s with
            | Idle => []
            | Active _ r => [SongEnded (reference (metadata r)) (details (metadata r))]
            end)
  /\ (forall q e, step (mkSession q true Idle) e =
        (mkSession (match e with EvEnqueue t => q ++ [t] | EvStop => [] | _ => q end)
                   true Idle, []))
  /\ exists q, run (fst (stop s)) evs = (mkSession q true Idle, [])
     /\ (~ In EvStop evs -> q = enqueued evs).
Proof.
  split; [apply stop_result|]. split; [apply locked_step_exact|].
  rewrite stop_result. cbn [fst].
  destruct (locked_run [] evs) as [q E]. exists q. split; [exact E|].
  intros NS. rewrite (locked_run_append [] evs NS) in E. inversion E. reflexivity.
Qed.

(** C4: after [stop], enqueueing a playable track does not resume
    playback: nothing is handed to the player and it stays idle. *)
Lemma stop_then_enqueue_no_resume :
  run initialSession [EvStop; EvEnqueue (sample_track 1%nat true)]
  = (mkSession [sample_track 1%nat true] true Idle, []).
Proof. reflexivity. Qed.

(** C5: [stop] is idempotent: once a session is stopped, a further [stop]
    — right away, or after any events — yields exactly the stopped state
    again, and emits nothing. *)
Theorem stop_idempotent (s : Session) (evs : list SessionEvent) :
  stop (fst (stop s)) = (fst (stop s), [])
  /\ stop (fst (run (fst (stop s)) evs)) = (fst (stop s), []).
Proof.
  assert (S1 : fst (stop s) = mkSession [] true Idle) by (rewrite stop_result; reflexivity).
  rewrite S1. split; [rewrite stop_result; reflexivity|].
  destruct (locked_run [] evs) as [q ->]. rewrite stop_result. reflexivity.
Qed.

(** C9: on a player holding resource [r], every change into [Playing]
    emits [songStarted] with [r]'s reference and details, every other
    change between active statuses emits nothing, and the change to
    [Idle] emits [songEnded] with [r]'s reference and details and then
    runs [processQueue]. Over any run from a fresh session, each such
    notification is about the resource handed off last, which is the
    audio resource of an enqueued track. *)
Theorem player_state_notifications (s : Session) (st : ActiveStatus) (r : AudioResource)
    (evs : list SessionEvent) :
  audioPlayer s = Active st r ->
  (forall st',
     step s (EvPlayerStatus st') =
       (mkSession (queue s) (queueLock s) (Active st' r),
        match st' with
        | Playing => [SongStarted (reference (metadata r)) (details (metadata r))]
        | _ => []
        end))
  /\ step s EvPlayerIdle =
       (let (s2, ns2) := processQueue (mkSession (queue s) (queueLock s) Idle) in
        (s2, SongEnded (reference (metadata r)) (details (metadata r)) :: ns2))
  /\ single_flight None (snd (run initialSession evs))
  /\ Forall (from_tracks (enqueued evs)) (played (snd (run initialSession evs))).
Proof.
  intros Pl. split; [|split; [|split]].
  - intros st'. simpl. rewrite Pl. unfold setPlayerState. rewrite Pl, listener_active.
    destruct st'; reflexivity.
  - simpl. rewrite Pl. apply (setPlayerState_idle s st r Pl).
  - apply (run_sf initialSession evs).
  - destruct (run_inv initialSession evs) as (_ & H & _). exact H.
Qed.

End SessionTheorems.

Module SupervisorTheorems.

Lemma find_existsb {A B} (f : A -> bool) (l : list A) (x y : B) :
  match find f l with Some _ => x | None => y end = if existsb f l then x else y.
Proof.
  induction l as [|a l IH]; [reflexivity|]. simpl. destruct (f a); [reflexivity|exact IH].
Qed.

(** C6: on a disconnect by WebSocket close code 4014, the listener waits
    5000 ms for [Connecting]: if some later change to [Connecting] comes
    within that time it does nothing, otherwise it issues exactly one
    [destroy()], 5000 ms after the disconnect. The ready-guard is left
    as it is. *)
Theorem disconnect_4014_grace (ru : option Z) (c : ConnChange) (later : list ConnChange) :
  newStatus c = Disconnected (WebSocketClose 4014) ->
  onConnStateChange ru c later =
    (ru, if existsb (seen_within Connecting (at_ms c) 5000) later
         then [] else [(at_ms c + 5000, Destroy)]).
Proof.
  intros H. unfold onConnStateChange. rewrite H. simpl.
  unfold entersState. simpl.
  change (fun c0 : ConnChange => same_status (newStatus c0) Connecting
                                 && (at_ms c0 <? at_ms c + 5000))
    with (seen_within Connecting (at_ms c) 5000).
  rewrite <- (find_existsb (seen_within Connecting (at_ms c) 5000) later
                (@nil (Z * ConnAction)) [(at_ms c + 5000, Destroy)]).
  destruct (find _ later); reflexivity.
Qed.

(** C7: on any other disconnect, with [n] rejoin attempts so far, the
    listener issues [rejoin()] after waiting [(n + 1) * 5000] ms when
    [n < 5], and [destroy()] at once otherwise. *)
Theorem disconnect_backoff (ru : option Z) (c : ConnChange) (later : list ConnChange)
    (reason : VoiceConnectionDisconnectReason) :
  newStatus c = Disconnected reason -> reason <> WebSocketClose 4014 ->
  onConnStateChange ru c later =
    (ru, if rejoinAttempts c <? 5
         then [(at_ms c + (rejoinAttempts c + 1) * 5000, Rejoin)]
         else [(at_ms c, Destroy)]).
Proof.
  intros H N. unfold onConnStateChange. rewrite H.
  replace (is_4014 (Disconnected reason)) with false; [destruct (_ <? 5); reflexivity|].
  destruct reason as [code| | |]; try reflexivity. simpl.
  destruct (Z.eqb_spec code 4014); [subst; contradiction|reflexivity].
Qed.

(** C8: on a change into [Connecting] or [Signalling] at [t0]:
    - while the ready-guard is held, nothing happens (no second bound);
    - otherwise the guard is taken, and if a change to [Ready] comes
      before [t0 + 20000] the guard is released at that change and no
      action is taken; if none comes, the guard is released at
      [t0 + 20000] and one [destroy()] is issued then, unless the
      connection is [Destroyed] by that time. In both cases the guard is
      held from [t0] until it is released. *)
Theorem connecting_ready_bound (ru : option Z) (c : ConnChange) (later : list ConnChange) :
  (newStatus c = Connecting \/ newStatus c = Signalling) ->
  Forall (fun c' => at_ms c < at_ms c') later ->
  (readyLockAt ru (at_ms c) = true -> onConnStateChange ru c later = (ru, []))
  /\ (readyLockAt ru (at_ms c) = false ->
      (forall cr, find (seen_within Ready (at_ms c) 20000) later = Some cr ->
         onConnStateChange ru c later = (Some (at_ms cr), [])
         /\ at_ms c < at_ms cr < at_ms c + 20000
         /\ readyLockAt (Some (at_ms cr)) (at_ms c) = true)
      /\ (find (seen_within Ready (at_ms c) 20000) later = None ->
          onConnStateChange ru c later =
            (Some (at_ms c + 20000),
             if same_status (statusAt (newStatus c) later (at_ms c + 20000)) Destroyed
             then [] else [(at_ms c + 20000, Destroy)])
          /\ readyLockAt (Some (at_ms c + 20000)) (at_ms c) = true)).
Proof.
  intros HS Later.
  assert (E : onConnStateChange ru c later =
              if readyLockAt ru (at_ms c) then (ru, [])
              else match entersState (newStatus c) Ready (at_ms c) 20000 later with
                   | Some tr => (Some tr, [])
                   | None =>
                     (Some (at_ms c + 20000),
                      if same_status (statusAt (newStatus c) later (at_ms c + 20000)) Destroyed
                      then [] else [(at_ms c + 20000, Destroy)])
                   end)
    by (unfold onConnStateChange; destruct HS as [-> | ->]; reflexivity).
  assert (ES : entersState (newStatus c) Ready (at_ms c) 20000 later
               = option_map at_ms (find (seen_within Ready (at_ms c) 20000) later))
    by (unfold entersState; destruct HS as [-> | ->]; simpl;
        destruct (find _ later); reflexivity).
  rewrite E, ES. split; [intros ->; reflexivity|]. intros ->.
  split.
  - intros cr F. rewrite F. split; [reflexivity|].
    apply find_some in F as [In_cr Sw].
    rewrite Forall_forall in Later. specialize (Later cr In_cr).
    unfold seen_within in Sw. apply andb_true_iff in Sw as [_ Lt]. apply Z.ltb_lt in Lt.
    split; [lia|]. simpl. apply Z.ltb_lt. lia.
  - intros F. rewrite F. split; [reflexivity|]. simpl. apply Z.ltb_lt. lia.
Qed.

End SupervisorTheorems.

(** Rounding to a double is exact on the whole numbers of seconds up to
    2^53, and [Math.floor(s / 60)] is the floor quotient there. *)
Module DoubleFacts.

Lemma round_div_near a b : 0 < b -> 2 * a - b <= 2 * b * round_div a b <= 2 * a + b.
Proof.
  intros Hb. unfold round_div.
  pose proof (Z.div_mod a b ltac:(lia)) as D.
  pose proof (Z.mod_pos_bound a b Hb) as M.
  set (q := a / b) in *. set (r := a mod b) in *.
  destruct (2 * r <? b) eqn:E1; [apply Z.ltb_lt in E1; nia|apply Z.ltb_ge in E1].
  destruct (b <? 2 * r) eqn:E2; [apply Z.ltb_lt in E2; nia|apply Z.ltb_ge in E2].
  destruct (Z.even q); nia.
Qed.

Lemma round_div_exact a b : 0 < b -> a mod b = 0 -> round_div a b = a / b.
Proof.
  intros Hb M. unfold round_div. rewrite M. simpl.
  destruct (0 <? b) eqn:E; [reflexivity|apply Z.ltb_ge in E; lia].
Qed.

Lemma scale_pos a b e : 0 < a -> 0 < b ->
  0 < fst (scale a b e) /\ 0 < snd (scale a b e).
Proof.
  intros Ha Hb. unfold scale. destruct (0 <=? e) eqn:E; simpl.
  - apply Z.leb_le in E. pose proof (Z.pow_pos_nonneg 2 e ltac:(lia) E). nia.
  - apply Z.leb_gt in E. pose proof (Z.pow_pos_nonneg 2 (- e) ltac:(lia) ltac:(lia)). nia.
Qed.

Lemma scale_raw a b : 0 < a -> 0 < b ->
  let (N, D) := scale a b (Z.log2 a - Z.log2 b - 52) in
  2 ^ 51 * D < N < 2 ^ 53 * D.
Proof.
  intros Ha Hb.
  pose proof (Z.log2_spec a Ha) as [A1 A2].
  pose proof (Z.log2_spec b Hb) as [B1 B2].
  pose proof (Z.log2_nonneg a). pose proof (Z.log2_nonneg b).
  set (la := Z.log2 a) in *. set (lb := Z.log2 b) in *.
  rewrite Z.pow_succ_r in A2, B2 by lia.
  unfold scale. destruct (0 <=? la - lb - 52) eqn:E.
  - apply Z.leb_le in E.
    assert (P : 2 ^ la = 2 ^ 52 * (2 ^ lb * 2 ^ (la - lb - 52))).
    { rewrite <- Z.pow_add_r by lia. rewrite <- Z.pow_add_r by lia. f_equal. lia. }
    pose proof (Z.pow_pos_nonneg 2 (la - lb - 52) ltac:(lia) E) as X.
    set (x := 2 ^ (la - lb - 52)) in *. nia.
  - apply Z.leb_gt in E.
    assert (P : 2 ^ la * 2 ^ (- (la - lb - 52)) = 2 ^ 52 * 2 ^ lb).
    { rewrite <- !Z.pow_add_r by lia. f_equal. lia. }
    pose proof (Z.pow_pos_nonneg 2 (- (la - lb - 52)) ltac:(lia) ltac:(lia)) as X.
    set (x := 2 ^ (- (la - lb - 52))) in *. nia.
Qed.

Lemma scale_pred a b e : 0 < a -> 0 < b ->
  fst (scale a b (e - 1)) * snd (scale a b e) = 2 * fst (scale a b e) * snd (scale a b (e - 1)).
Proof.
  intros Ha Hb. unfold scale.
  destruct (0 <=? e - 1) eqn:E1, (0 <=? e) eqn:E2; cbn [fst snd];
    [apply Z.leb_le in E1, E2 | apply Z.leb_le in E1; apply Z.leb_gt in E2; lia
    | apply Z.leb_gt in E1; apply Z.leb_le in E2
    | apply Z.leb_gt in E1, E2].
  - replace e with (Z.succ (e - 1)) at 1 by lia. rewrite Z.pow_succ_r by lia. ring.
  - replace e with 0 by lia. rewrite Z.pow_0_r. replace (- (0 - 1)) with 1 by lia. rewrite Z.pow_1_r. ring.
  - replace (- (e - 1)) with (Z.succ (- e)) by lia. rewrite Z.pow_succ_r by lia. ring.
Qed.

Lemma double_exponent_spec a b : 0 < a -> 0 < b ->
  let (N, D) := scale a b (double_exponent a b) in
  2 ^ 52 * D <= N < 2 ^ 53 * D.
Proof.
  intros Ha Hb. unfold double_exponent. cbv zeta.
  pose proof (scale_raw a b Ha Hb) as R.
  pose proof (scale_pred a b (Z.log2 a - Z.log2 b - 52) Ha Hb) as Pd.
  pose proof (scale_pos a b (Z.log2 a - Z.log2 b - 52 - 1) Ha Hb) as [P1 P2].
  pose proof (scale_pos a b (Z.log2 a - Z.log2 b - 52) Ha Hb) as [P3 P4].
  set (e0 := Z.log2 a - Z.log2 b - 52) in *.
  destruct (scale a b e0) as [N D] eqn:S0.
  destruct (N <? 2 ^ 52 * D) eqn:L.
  - apply Z.ltb_lt in L.
    destruct (scale a b (e0 - 1)) as [N1 D1] eqn:S1. cbn [fst snd] in *. nia.
  - apply Z.ltb_ge in L. rewrite S0. lia.
Qed.

Lemma pow2_ge_4 e : 2 <= e -> 4 <= 2 ^ e.
Proof. intros H. change 4 with (2 ^ 2). apply Z.pow_le_mono_r; lia. Qed.

Lemma round_int_exact z :
  Z.abs z <= 2 ^ 53 \/ (Z.abs z < 2 ^ 54 /\ Z.even z = true) ->
  double_floor (round_double z 1) = z.
Proof.
  intros Hz. unfold round_double.
  destruct (z =? 0) eqn:Z0; [apply Z.eqb_eq in Z0; subst; reflexivity|].
  apply Z.eqb_neq in Z0.
  pose proof (double_exponent_spec (Z.abs z) 1 ltac:(lia) ltac:(lia)) as Sp.
  set (e := double_exponent (Z.abs z) 1) in *.
  unfold scale in *. destruct (0 <=? e) eqn:E; cbn [double_floor].
  - rewrite E. apply Z.leb_le in E.
    assert (E01 : e = 0 \/ e = 1).
    { destruct (Z.le_gt_cases 2 e) as [G|G]; [|lia].
      pose proof (pow2_ge_4 e G). exfalso.
      assert (2 ^ 54 = 2 ^ 52 * 4) by reflexivity. destruct Hz as [Hz|[Hz _]]; lia. }
    destruct E01 as [-> | ->].
    + rewrite Z.mul_1_r, Z.pow_0_r, round_div_exact by (try rewrite Z.mod_1_r; lia).
      rewrite Z.div_1_r. lia.
    + change (1 * 2 ^ 1) with 2. change (2 ^ 1) with 2.
      assert (Ev : Z.even z = true).
      { destruct Hz as [Hz|[_ Ev]]; [|exact Ev].
        change (2 ^ 53 * (1 * 2 ^ 1)) with (2 ^ 52 * 2 * 2) in Sp.
        assert (Z.abs z = 2 ^ 53) by lia.
        destruct (Z.abs_spec z) as [[_ A]|[_ A]]; rewrite A in H;
          [subst; reflexivity|replace z with (- 2 ^ 53) by lia; reflexivity]. }
      apply Z.even_spec in Ev. destruct Ev as [h ->].
      rewrite round_div_exact by (try (rewrite Z.mul_comm; apply Z.mod_mul); lia).
      rewrite (Z.mul_comm 2 h), Z.div_mul by lia. reflexivity.
  - apply Z.leb_gt in E. destruct (0 <=? e) eqn:E'; [apply Z.leb_le in E'; lia|].
    rewrite round_div_exact by (try rewrite Z.mod_1_r; lia).
    rewrite Z.div_1_r, Z.div_mul; [reflexivity|].
    pose proof (Z.pow_pos_nonneg 2 (- e) ltac:(lia) ltac:(lia)). lia.
Qed.

Lemma floor_div60 s : Z.abs s <= 2 ^ 53 -> double_floor (round_double s 60) = s / 60.
Proof.
  intros Hs. unfold round_double.
  destruct (s =? 0) eqn:Z0; [apply Z.eqb_eq in Z0; subst; reflexivity|].
  apply Z.eqb_neq in Z0.
  pose proof (double_exponent_spec (Z.abs s) 60 ltac:(lia) ltac:(lia)) as Sp.
  set (e := double_exponent (Z.abs s) 60) in *.
  unfold scale in *. destruct (0 <=? e) eqn:E; cbn [double_floor].
  - apply Z.leb_le in E. pose proof (Z.pow_pos_nonneg 2 e ltac:(lia) E). exfalso.
    assert (2 ^ 53 = 2 ^ 52 * 2) by reflexivity. nia.
  - apply Z.leb_gt in E. destruct (0 <=? e) eqn:E'; [apply Z.leb_le in E'; lia|].
    set (K := 2 ^ (- e)) in *.
    assert (K32 : 32 <= K).
    { destruct (Z.le_gt_cases 5 (- e)) as [G|G].
      - change 32 with (2 ^ 5). apply Z.pow_le_mono_r; lia.
      - assert (K <= 2 ^ 4) by (apply Z.pow_le_mono_r; lia).
        assert (2 ^ 53 = 2 ^ 52 * 2) by reflexivity. exfalso. nia. }
    pose proof (round_div_near (s * K) 60 ltac:(lia)) as Nr.
    set (m := round_div (s * K) 60) in *.
    pose proof (Z.div_mod s 60 ltac:(lia)) as D.
    pose proof (Z.mod_pos_bound s 60 ltac:(lia)) as M.
    set (q := s / 60) in *. set (r := s mod 60) in *.
    assert (R1 : 0 <= r * K <= 59 * K) by nia.
    assert (SK : s * K = 60 * (q * K) + r * K) by (rewrite D; ring).
    symmetry. apply (Z.div_unique m K q (m - K * q)); [|ring].
    left. nia.
Qed.

Lemma durationWrapper_exact s : Z.abs s <= 2 ^ 53 ->
  flatMinutes (durationWrapper s) = s / 60
  /\ seconds (durationWrapper s) = s - s / 60 * 60.
Proof.
  intros Hs. unfold durationWrapper; cbn [flatMinutes seconds].
  rewrite floor_div60 by exact Hs.
  pose proof (Z.div_mod s 60 ltac:(lia)) as D.
  pose proof (Z.mod_pos_bound s 60 ltac:(lia)) as M.
  rewrite (round_int_exact (s / 60 * 60)).
  - rewrite round_int_exact; [split; reflexivity|]. left. lia.
  - right. split; [assert (2 ^ 54 = 2 ^ 53 * 2) by reflexivity; lia|].
    rewrite Z.even_mul. rewrite orb_true_r. reflexivity.
Qed.

End DoubleFacts.

Module DurationTheorems.
Import DoubleFacts.

(** C10 (as the code does it): for a whole number of seconds [s] with
    [0 <= s <= 2^53], where every intermediate double is exact,
    [flatMinutes] is the floor of [s / 60], [seconds] is what is left,
    between 0 and 59, and the timestamp is the two numbers in decimal
    joined by a colon, without zero-padding the seconds (65 seconds give
    "1:5"). *)
Theorem durationWrapper_fields (s : Z) :
  0 <= s <= 2 ^ 53 ->
  flatMinutes (durationWrapper s) = s / 60
  /\ flatMinutes (durationWrapper s) * 60 <= s < (flatMinutes (durationWrapper s) + 1) * 60
  /\ seconds (durationWrapper s) = s - 60 * flatMinutes (durationWrapper s)
  /\ 0 <= seconds (durationWrapper s) < 60
  /\ timestamp (durationWrapper s)
     = (Number_toString (flatMinutes (durationWrapper s)) ++ ":"
        ++ Number_toString (seconds (durationWrapper s)))%string
  /\ timestamp (durationWrapper 65) = "1:5"%string.
Proof.
  intros Hs.
  destruct (durationWrapper_exact s ltac:(lia)) as [F S].
  assert (T : timestamp (durationWrapper s)
              = (Number_toString (flatMinutes (durationWrapper s)) ++ ":"
                 ++ Number_toString (seconds (durationWrapper s)))%string)
    by reflexivity.
  assert (T65 : timestamp (durationWrapper 65) = "1:5"%string) by (vm_compute; reflexivity).
  rewrite F, S in *.
  pose proof (Z.div_mod s 60 ltac:(lia)) as D.
  pose proof (Z.mod_pos_bound s 60 ltac:(lia)) as M.
  repeat split; first [exact T | exact T65 | lia].
Qed.

(** C10: above 2^53 the double arithmetic breaks the claim. For
    s = 576460752303423296, an exact double, [seconds / 60] rounds to
    9607679205057054 and [minutes * 60] rounds down by 8, so [seconds] is
    64 and the timestamp is "9607679205057054:64": the seconds are not
    below 60 and [flatMinutes * 60 + seconds] is not [s]. *)
Theorem durationWrapper_beyond_2_53 :
  double_floor (round_double 576460752303423296 1) = 576460752303423296
  /\ flatMinutes (durationWrapper 576460752303423296) = 9607679205057054
  /\ seconds (durationWrapper 576460752303423296) = 64
  /\ timestamp (durationWrapper 576460752303423296) = "9607679205057054:64"%string
  /\ flatMinutes (durationWrapper 576460752303423296) * 60
     + seconds (durationWrapper 576460752303423296) <> 576460752303423296.
Proof.
  split; [vm_compute; reflexivity|].
  split; [vm_compute; reflexivity|].
  split; [vm_compute; reflexivity|].
  split; [vm_compute; reflexivity|].
  vm_compute. discriminate.
Qed.

End DurationTheorems.

(* ================================================================== *)
(** * Witnesses: the theorems applied to concrete sessions and traces *)

Module Witnesses.
Import QueueTheorems SessionTheorems SupervisorTheorems DurationTheorems FifoFacts.

Lemma enqueue_order_single_flight_witness :
  let evs := [EvEnqueue (sample_track 1%nat true); EvEnqueue (sample_track 2%nat true);
              EvPlayerStatus Playing; EvPlayerIdle] in
  ~ In EvStop evs /\ Forall (fun t => handoff_ok t = true) (enqueued evs) /\
  (map Some (played (snd (run initialSession evs)))
     ++ map audioResource (queue (fst (run initialSession evs)))
   = map audioResource (enqueued evs)
   /\ single_flight None (snd (run initialSession evs))).
Proof.
  intros evs.
  assert (NS : ~ In EvStop evs) by (simpl; intuition discriminate).
  assert (F : Forall (fun t => handoff_ok t = true) (enqueued evs))
    by (simpl; repeat constructor).
  split; [exact NS|split; [exact F|]].
  apply (enqueue_order_single_flight evs NS F).
Defined.

Lemma processQueue_noop_iff_guard_witness :
  processQueue (mkSession [sample_track 1%nat true; sample_track 2%nat true] false Idle)
  = (mkSession [sample_track 2%nat true] false (Active Buffering (sample_resource 1%nat true)),
     [Played (sample_resource 1%nat true)]).
Proof.
  apply (proj2 (processQueue_noop_iff_guard
                  (mkSession [sample_track 1%nat true; sample_track 2%nat true] false Idle))
           (sample_track 1%nat true) [sample_track 2%nat true] (sample_resource 1%nat true));
    reflexivity.
Defined.

Lemma processQueue_skips_failures_witness :
  processQueue (mkSession [sample_track 1%nat false; sample_track 2%nat true] false Idle)
  = (mkSession [] false (Active Buffering (sample_resource 2%nat true)),
     [PlayingError (Some 1%nat) NotPlayable; Played (sample_resource 2%nat true)]).
Proof.
  rewrite (processQueue_skips_failures
             (mkSession [sample_track 1%nat false; sample_track 2%nat true] false Idle)
             [sample_track 1%nat false] [sample_track 2%nat true]); try reflexivity.
  repeat constructor. exists (sample_resource 1%nat false). split; reflexivity.
Defined.

Lemma disconnect_4014_grace_witness :
  onConnStateChange None (sample_change 0 (Disconnected (WebSocketClose 4014)) 0)
    [sample_change 7000 Connecting 0]
  = (None, [(5000, Destroy)]).
Proof.
  rewrite (disconnect_4014_grace None
             (sample_change 0 (Disconnected (WebSocketClose 4014)) 0)
             [sample_change 7000 Connecting 0]) by reflexivity.
  reflexivity.
Defined.

Lemma disconnect_backoff_witness :
  onConnStateChange None (sample_change 0 (Disconnected (WebSocketClose 4006)) 4) []
  = (None, [(25000, Rejoin)]).
Proof.
  rewrite (disconnect_backoff None
             (sample_change 0 (Disconnected (WebSocketClose 4006)) 4) []
             (WebSocketClose 4006)); [reflexivity|reflexivity|congruence].
Defined.

Lemma connecting_ready_bound_witness :
  onConnStateChange None (sample_change 0 Connecting 0) [sample_change 3000 Ready 0]
  = (Some 3000, []).
Proof.
  destruct (connecting_ready_bound None (sample_change 0 Connecting 0)
              [sample_change 3000 Ready 0]) as [_ H];
    [left; reflexivity|repeat constructor|].
  destruct (H eq_refl) as [H1 _].
  apply (H1 (sample_change 3000 Ready 0) eq_refl).
Defined.

Lemma player_state_notifications_witness :
  step (mkSession [] false (Active Buffering (sample_resource 1%nat true))) (EvPlayerStatus Playing)
  = (mkSession [] false (Active Playing (sample_resource 1%nat true)),
     [SongStarted 1%nat (sample_details 65)]).
Proof.
  apply (proj1 (player_state_notifications
                  (mkSession [] false (Active Buffering (sample_resource 1%nat true)))
                  Buffering (sample_resource 1%nat true) [] eq_refl) Playing).
Defined.

Lemma durationWrapper_fields_witness :
  flatMinutes (durationWrapper 125) = 2 /\ seconds (durationWrapper 125) = 5.
Proof.
  assert (B : 0 <= 125 <= 2 ^ 53) by (split; [lia|vm_compute; discriminate]).
  destruct (durationWrapper_fields 125 B) as (H1 & _ & H3 & _).
  split; [rewrite H1; reflexivity|rewrite H3, H1; reflexivity].
Defined.

End Witnesses.

(** * Scenarios of the specification, run on the model *)

Module Scenarios.

(** Tracks A and B are enqueued, A's hand-off fails and B's succeeds:
    [playingError] for A, then B is handed off and starts. *)
Example failed_then_started :
  run initialSession
    [EvEnqueue (sample_track 1%nat false); EvEnqueue (sample_track 2%nat true);
     EvPlayerStatus Playing]
  = (mkSession [] false (Active Playing (sample_resource 2%nat true)),
     [PlayingError (Some 1%nat) NotPlayable; Played (sample_resource 2%nat true);
      SongStarted 2%nat (sample_details 65)]).
Proof. reflexivity. Qed.

(** The connection reaches [Connecting] at 0 and stays there until
    25000 ms: one [destroy()] at 20000 ms. *)
Example connecting_stuck :
  supervise None [sample_change 0 Connecting 0; sample_change 25000 Destroyed 0]
  = [(20000, Destroy); (25000, StopSubscription)].
Proof. reflexivity. Qed.

Example durationWrapper_65 : timestamp (durationWrapper 65) = "1:5"%string.
Proof. reflexivity. Qed.

End Scenarios.

(* ================================================================== *)
(** * Further properties of the code *)

Module UrlTheorems.

Lemma dead_not_nullable r : dead r -> nullable r = false.
Proof.
  induction r as [| |p|r1 IH1 r2 IH2|r1 IH1 r2 IH2|r IH]; simpl; intros D;
    try contradiction; try reflexivity.
  - rewrite IH1 by exact D; reflexivity.
  - destruct D as [D1 D2]. rewrite IH1, IH2 by assumption; reflexivity.
Qed.

Lemma dead_deriv c r : dead r -> dead (deriv c r).
Proof.
  induction r; simpl; intuition.
  rewrite dead_not_nullable by assumption. simpl. tauto.
Qed.

Lemma dead_test r s : dead r -> regex_test r s = false.
Proof.
  revert r; induction s as [|c s IH]; intros r D; simpl.
  - apply dead_not_nullable, D.
  - apply IH, dead_deriv, D.
Qed.

Lemma deriv_outside P c r :
  classes_within P r -> P c = false -> dead (deriv c r).
Proof.
  intros W Pc. induction r; simpl in *; intuition.
  - destruct (p c) eqn:E; [|exact I]. rewrite (W c E) in Pc. discriminate.
  - destruct (nullable r1); simpl; auto.
Qed.

Lemma deriv_within P c r : classes_within P r -> classes_within P (deriv c r).
Proof.
  induction r; simpl; intuition.
  - destruct (p c); simpl; exact I.
  - destruct (nullable r1); simpl; auto.
Qed.

Lemma test_within P r s :
  classes_within P r -> regex_test r s = true ->
  Forall (fun c => P c = true) (list_ascii_of_string s).
Proof.
  revert r; induction s as [|c s IH]; intros r W T; simpl in *; [constructor|].
  destruct (P c) eqn:Pc.
  - constructor; [exact Pc|]. apply (IH (deriv c r)); [apply deriv_within, W|exact T].
  - rewrite (dead_test _ s (deriv_outside P c r W Pc)) in T. discriminate.
Qed.

Lemma is_char_eq a c : is_char a c = true -> c = a.
Proof. unfold is_char. intros H. apply Ascii.eqb_eq in H. auto. Qed.

Lemma urlRegex_within : classes_within url_char urlRegex.
Proof.
  unfold urlRegex, ropt, url_char, cls_word.
  repeat split; intros c H;
    first [ apply is_char_eq in H; subst; reflexivity
          | repeat rewrite orb_true_iff in *; tauto ].
Qed.

(** X1: a string [isURL] accepts consists only of ASCII letters, digits,
    ['_'], ['.'], ['-'], ['/'] and [':']; so a query with a space, a ['?']
    or an ['='] (such as a YouTube watch link) is never taken as a URL. *)
Theorem isURL_charset (text : string) :
  isURL text = true -> Forall (fun c => url_char c = true) (list_ascii_of_string text).
Proof. apply test_within, urlRegex_within. Qed.

End UrlTheorems.

Module TrackTheorems.

Lemma createAudioResource_resolved env ref u r :
  createAudioResource env ref u = Resolved r ->
  reference (metadata r) = ref /\ playable r = true /\ started r = false.
Proof.
  unfold createAudioResource.
  destruct (fetchMetadata env u); [discriminate|].
  destruct (probeStream env u) as [|[]]; [discriminate|].
  intros H; inversion H; subst; auto.
Qed.

(** X2: a track that [Track.create] resolves to keeps the query and the
    reference it was given, has its audio resource set, with that same
    reference in the resource's metadata, and its resource can be handed
    to the player (it has not ended yet) and has not started. *)
Theorem create_resolved_track env q ref t :
  create env q ref = Resolved t ->
  query t = q /\ track_reference t = ref /\ track_created t /\ handoff_ok t = true
  /\ exists r, audioResource t = Some r /\ started r = false.
Proof.
  unfold create.
  destruct (negb (isURL q)); [destruct (fetchURL env q) as [u|m|]|];
    try discriminate; simpl;
    destruct (createAudioResource env ref _) as [r|m|] eqn:C; try discriminate;
    intros H; inversion H; subst; simpl;
    apply createAudioResource_resolved in C as [R [P St]];
    (split; [reflexivity|split; [reflexivity|split; [|split]]]);
    solve [ exists r; auto | unfold handoff_ok; simpl; exact P ].
Qed.

(** X4: for a query that is not a URL, a resolved track's [url] is the
    first search result's [href] appended to ["https://www.youtube.com"]
    (["null"] when the attribute is missing). *)
Theorem create_search_url env q ref t :
  isURL q = false -> create env q ref = Resolved t ->
  exists href, searchHref env q = inr href
  /\ url t = Some (concat_nullable "https://www.youtube.com" href).
Proof.
  intros U. unfold create, fetchURL. rewrite U. simpl.
  destruct (searchHref env q) as [m|href]; [discriminate|].
  simpl. destruct (createAudioResource _ _ _); try discriminate.
  intros H; inversion H; subst. exists href; split; reflexivity.
Qed.

(** X5: when [fetchMetadata] fails on the URL [Track.create] goes on to
    use, the promise of [Track.create] never settles: the failure is
    thrown inside the [async] executor of [createAudioResource]. *)
Theorem create_metadata_failure_pending env q ref u m :
  (isURL q = true /\ u = None
   \/ isURL q = false /\ exists href, searchHref env q = inr href
                        /\ u = Some (concat_nullable "https://www.youtube.com" href)) ->
  fetchMetadata env u = inl m ->
  create env q ref = Pending.
Proof.
  intros Hu F.
  assert (C : createAudioResource env ref u = Pending)
    by (unfold createAudioResource; rewrite F; reflexivity).
  unfold create, fetchURL.
  destruct Hu as [[U ->]|[U [href [S ->]]]]; rewrite U; simpl.
  - rewrite C. reflexivity.
  - rewrite S. simpl. rewrite C. reflexivity.
Qed.

(** X6: [fetchMetadata] fails exactly when [getBasicInfo] fails or the
    video has no thumbnail, and its message is ["Metadata fetch error: "]
    followed by the message of that error: the one [getBasicInfo] failed
    with, or the TypeError of reading [url] on the missing thumbnail. *)
Theorem fetchMetadata_failures env u m :
  fetchMetadata env u = inl m <->
  (exists e, getBasicInfo env u = inl e /\ m = ("Metadata fetch error: " ++ e)%string)
  \/ (exists vd, getBasicInfo env u = inr vd /\ vd_thumbnailUrls vd = []
       /\ m = ("Metadata fetch error: " ++ undefined_url_message)%string).
Proof.
  unfold fetchMetadata.
  destruct (getBasicInfo env u) as [e|vd]; split.
  - intros H. inversion H; subst. left. exists e. split; reflexivity.
  - intros [[e' [H ->]]|[vd [H _]]]; [inversion H; subst; reflexivity|discriminate].
  - destruct (vd_thumbnailUrls vd) eqn:T; intros H; [|discriminate].
    inversion H; subst. right. exists vd. split; [reflexivity|split; [exact T|reflexivity]].
  - intros [[e' [H _]]|[vd' [H [T ->]]]]; [discriminate|].
    inversion H; subst. rewrite T. reflexivity.
Qed.

End TrackTheorems.

Module MoreSessionTheorems.
Import QueueFacts QueueTheorems TraceFacts.

Lemma processQueue_fuel_drains f s :
  queueLock s = false -> (List.length (queue s) < f)%nat ->
  drained (fst (processQueue_fuel f s)).
Proof.
  revert s; induction f as [|f IH]; intros s L Len; [lia|].
  rewrite processQueue_fuel_S.
  destruct (guard s) eqn:G.
  - cbn [fst]. unfold guard in G. rewrite L in G. split; [exact L|]. intros I.
    rewrite I in G. simpl in G. destruct (queue s); [reflexivity|simpl in G; discriminate].
  - apply guard_false in G as (_ & I & Q).
    destruct (queue s) as [|t rest] eqn:Qs; [contradiction|].
    destruct (play (audioResource t)) as [err|[r p']] eqn:P.
    + specialize (IH (mkSession rest false (audioPlayer s)) eq_refl).
      destruct (processQueue_fuel f (mkSession rest false (audioPlayer s))) as [s3 ns3].
      apply IH. simpl in *. lia.
    + apply play_inr in P as (_ & _ & ->). split; [reflexivity|discriminate].
Qed.

Lemma processQueue_drains s : queueLock s = false -> drained (fst (processQueue s)).
Proof. intros L. apply processQueue_fuel_drains; [exact L|lia]. Qed.

Lemma step_drains s e : drained s -> e <> EvStop -> drained (fst (step s e)).
Proof.
  intros Hd NS. pose proof Hd as [L D]. destruct e as [t| |st|]; simpl.
  - apply processQueue_drains. exact L.
  - contradiction.
  - destruct (audioPlayer s) as [|st0 r] eqn:Pl; [exact Hd|].
    unfold setPlayerState. rewrite Pl, listener_active. split; [exact L|discriminate].
  - destruct (audioPlayer s) as [|st r] eqn:Pl; [exact Hd|].
    unfold setPlayerState. rewrite Pl, listener_idle.
    pose proof (processQueue_drains (mkSession (queue s) (queueLock s) Idle) L) as H.
    destruct (processQueue (mkSession (queue s) (queueLock s) Idle)). exact H.
Qed.

(** X8: as long as [stop] is not called, the queue lock is never left
    held and the queue never stalls: whenever the player is idle, the
    queue is empty. Enqueue calls and the end of a track always drain the
    queue down to a playing track or to nothing. *)
Theorem run_never_stalls (evs : list SessionEvent) :
  ~ In EvStop evs ->
  queueLock (fst (run initialSession evs)) = false
  /\ (audioPlayer (fst (run initialSession evs)) = Idle
      -> queue (fst (run initialSession evs)) = []).
Proof.
  assert (G : forall s, drained s -> ~ In EvStop evs -> drained (fst (run s evs))).
  { induction evs as [|e evs IH]; intros s D NS; [exact D|].
    simpl. pose proof (step_drains s e D) as D1.
    destruct (step s e) as [s1 ns1].
    specialize (IH s1).
    destruct (run s1 evs) as [s2 ns2]. simpl in *.
    apply IH; [apply D1; intros ->; apply NS; left; reflexivity|].
    intros H; apply NS; right; exact H. }
  intros NS. apply G; [split; [reflexivity|reflexivity]|exact NS].
Qed.

End MoreSessionTheorems.

Module MoreDurationTheorems.
Import DoubleFacts.

(** X7: for every whole number of seconds [s] with [-2^53 <= s <= 2^53],
    also a negative one, [seconds] lies in [0, 60) and
    [flatMinutes * 60 + seconds] gives the input back: a negative input
    yields negative minutes and positive seconds (-5 gives "-1:55"). *)
Theorem durationWrapper_any_integer (s : Z) :
  - 2 ^ 53 <= s <= 2 ^ 53 ->
  0 <= seconds (durationWrapper s) < 60
  /\ flatMinutes (durationWrapper s) * 60 + seconds (durationWrapper s) = s.
Proof.
  intros Hs. destruct (durationWrapper_exact s ltac:(lia)) as [F S].
  rewrite F, S.
  pose proof (Z.div_mod s 60 ltac:(lia)) as D.
  pose proof (Z.mod_pos_bound s 60 ltac:(lia)) as M.
  lia.
Qed.

End MoreDurationTheorems.

Module MoreSupervisorTheorems.

Lemma onConnStateChange_stops ru c later :
  filter is_stop_action (snd (onConnStateChange ru c later))
  = if is_destroyed_change c then [(at_ms c, StopSubscription)] else [].
Proof.
  unfold onConnStateChange, is_destroyed_change.
  destruct (newStatus c); simpl;
    repeat (match goal with
            | |- context [if ?b then _ else _] => destruct b
            | |- context [match ?o with Some _ => _ | None => _ end] => destruct o
            end; simpl);
    reflexivity.
Qed.

(** X9: over a whole run of the connection, the subscription is torn
    down once for each change to [Destroyed], at the time of that change,
    and never otherwise: whatever the ready-bound lock, the disconnect
    handling and the timers do, [StopSubscription] is issued exactly for
    the [Destroyed] changes, in their order. *)
Theorem supervise_stops_exactly_on_destroyed (ru : option Z) (trace : list ConnChange) :
  filter is_stop_action (supervise ru trace)
  = map (fun c => (at_ms c, StopSubscription)) (filter is_destroyed_change trace).
Proof.
  revert ru; induction trace as [|c later IH]; intros ru; [reflexivity|].
  simpl. pose proof (onConnStateChange_stops ru c later) as S.
  destruct (onConnStateChange ru c later) as [ru' acts]. simpl in S.
  rewrite filter_app, S, IH. destruct (is_destroyed_change c); reflexivity.
Qed.

Lemma entersState_later cur target t0 to later tr :
  same_status cur target = false ->
  entersState cur target t0 to later = Some tr ->
  exists c, In c later /\ at_ms c = tr.
Proof.
  unfold entersState. intros -> H.
  destruct (find _ later) as [c|] eqn:F; [|discriminate].
  inversion H; subst. apply find_some in F as [I _]. exists c. split; [exact I|reflexivity].
Qed.

(** Once a ready-bound has settled or is pending until [u], every later
    ready-bound destroy happens at least 20000 ms after [u]. *)
Lemma ready_destroys_after u later :
  StronglySorted at_before later ->
  Forall (fun c => is_disconnect_change c = false) later ->
  Forall (fun d => u + 20000 <= d) (destroy_times (supervise (Some u) later)).
Proof.
  revert u; induction later as [|c later IH]; intros u SS ND; [constructor|].
  inversion SS as [|? ? SS' After]; subst.
  inversion ND as [|? ? NDc ND']; subst.
  simpl. unfold onConnStateChange, is_disconnect_change in *.
  assert (Cases : forall v, u <= v ->
            Forall (fun d => u + 20000 <= d) (destroy_times (supervise (Some v) later))).
  { intros v Hv. eapply Forall_impl; [|apply IH; assumption]. cbn beta. intros d Hd. lia. }
  destruct (newStatus c) eqn:N; try discriminate; cbn -[supervise entersState statusAt].
  1,2:
    (destruct (at_ms c <? u) eqn:Lk;
     [apply Cases; lia|];
     apply Z.ltb_ge in Lk;
     destruct (entersState _ Ready (at_ms c) 20000 later) as [tr|] eqn:E;
     [ apply entersState_later in E as (c' & I & <-); [|reflexivity];
       rewrite Forall_forall in After; specialize (After c' I); unfold at_before in After;
       apply Cases; lia
     | destruct (same_status _ Destroyed); cbn -[supervise];
       [apply Cases; lia|];
       constructor; [lia|];
       eapply Forall_impl; [|apply IH; assumption]; cbn beta; intros d Hd; lia ]).
  all: apply Cases; lia.
Qed.

(** X10: when the connection never disconnects, the ready-bound timeouts
    destroy it at most once per 20 seconds: while a 20 s wait for [Ready]
    is pending, further [Signalling]/[Connecting] changes start no new
    wait, so any two [Destroy] actions are at least 20000 ms apart, in
    time order. *)
Theorem ready_destroys_spaced (trace : list ConnChange) :
  StronglySorted at_before trace ->
  Forall (fun c => is_disconnect_change c = false) trace ->
  StronglySorted (fun a b => a + 20000 <= b) (destroy_times (supervise None trace)).
Proof.
  assert (G : forall ru, StronglySorted at_before trace ->
            Forall (fun c => is_disconnect_change c = false) trace ->
            StronglySorted (fun a b => a + 20000 <= b) (destroy_times (supervise ru trace))).
  { induction trace as [|c later IH]; intros ru SS ND; [constructor|].
    inversion SS as [|? ? SS' After]; subst.
    inversion ND as [|? ? NDc ND']; subst.
    simpl. unfold onConnStateChange, is_disconnect_change in *.
    destruct (newStatus c) eqn:N; try discriminate;
      cbn -[supervise entersState statusAt readyLockAt].
    1,2:
      (destruct (readyLockAt ru (at_ms c)); [apply IH; assumption|];
       destruct (entersState _ Ready (at_ms c) 20000 later) as [tr|];
       [apply IH; assumption|];
       destruct (same_status _ Destroyed); cbn -[supervise]; [apply IH; assumption|];
       constructor; [apply IH; assumption|];
       apply ready_destroys_after; assumption).
    all: apply IH; assumption. }
  intros SS ND. apply G; assumption.
Qed.

End MoreSupervisorTheorems.

Module ExtraWitnesses.
Import UrlTheorems TrackTheorems MoreSessionTheorems MoreSupervisorTheorems
  MoreDurationTheorems.

Lemma isURL_charset_witness :
  isURL "https://youtu.be/abc"%string = true
  /\ Forall (fun c => url_char c = true) (list_ascii_of_string "https://youtu.be/abc"%string).
Proof.
  assert (H : isURL "https://youtu.be/abc"%string = true) by (vm_compute; reflexivity).
  split; [exact H|apply (isURL_charset _ H)].
Defined.

Lemma create_resolved_track_witness :
  exists t, create (sample_env ["cover.jpg"%string]) "never gonna give you up"%string 7%nat
            = Resolved t
  /\ (query t = "never gonna give you up"%string /\ track_reference t = 7%nat
      /\ track_created t /\ handoff_ok t = true
      /\ exists r, audioResource t = Some r /\ started r = false).
Proof.
  eexists. split; [reflexivity|].
  apply (create_resolved_track (sample_env ["cover.jpg"%string])
           "never gonna give you up"%string 7%nat).
  reflexivity.
Defined.

Lemma create_search_url_witness :
  exists t, isURL "never gonna give you up"%string = false
  /\ create (sample_env ["cover.jpg"%string]) "never gonna give you up"%string 7%nat
     = Resolved t
  /\ exists href, searchHref (sample_env ["cover.jpg"%string]) "never gonna give you up"%string
                  = inr href
     /\ url t = Some (concat_nullable "https://www.youtube.com" href).
Proof.
  assert (U : isURL "never gonna give you up"%string = false) by (vm_compute; reflexivity).
  eexists. split; [exact U|]. split; [reflexivity|].
  apply (create_search_url (sample_env ["cover.jpg"%string]) _ 7%nat _ U). reflexivity.
Defined.

Lemma create_metadata_failure_pending_witness :
  fetchMetadata (sample_env [])
    (Some "https://www.youtube.com/watch?v=dQw4w9WgXcQ"%string)
  = inl ("Metadata fetch error: " ++ undefined_url_message)%string
  /\ create (sample_env []) "never gonna give you up"%string 7%nat = Pending.
Proof.
  assert (F : fetchMetadata (sample_env [])
                (Some "https://www.youtube.com/watch?v=dQw4w9WgXcQ"%string)
              = inl ("Metadata fetch error: " ++ undefined_url_message)%string)
    by reflexivity.
  split; [exact F|].
  apply (create_metadata_failure_pending (sample_env []) "never gonna give you up"%string 7%nat
           (Some "https://www.youtube.com/watch?v=dQw4w9WgXcQ"%string)
           ("Metadata fetch error: " ++ undefined_url_message)%string); [|exact F].
  right. split; [vm_compute; reflexivity|].
  exists (Some "/watch?v=dQw4w9WgXcQ"%string). split; reflexivity.
Defined.

Lemma run_never_stalls_witness :
  let evs := [EvEnqueue (sample_track 1%nat false); EvEnqueue (sample_track 2%nat true);
              EvEnqueue (sample_track 3%nat true); EvPlayerIdle] in
  ~ In EvStop evs
  /\ (queueLock (fst (run initialSession evs)) = false
      /\ (audioPlayer (fst (run initialSession evs)) = Idle
          -> queue (fst (run initialSession evs)) = [])).
Proof.
  intros evs.
  assert (NS : ~ In EvStop evs) by (simpl; intuition discriminate).
  split; [exact NS|apply (run_never_stalls evs NS)].
Defined.

Lemma ready_destroys_spaced_witness :
  let trace := [sample_change 0 Connecting 0; sample_change 10000 Connecting 0;
                sample_change 25000 Signalling 0] in
  StronglySorted at_before trace
  /\ Forall (fun c => is_disconnect_change c = false) trace
  /\ destroy_times (supervise None trace) = [20000; 45000]
  /\ StronglySorted (fun a b => a + 20000 <= b) (destroy_times (supervise None trace)).
Proof.
  intros trace.
  assert (SS : StronglySorted at_before trace)
    by (repeat constructor; unfold at_before; simpl; lia).
  assert (ND : Forall (fun c => is_disconnect_change c = false) trace)
    by (repeat constructor).
  split; [exact SS|split; [exact ND|split; [reflexivity|]]].
  apply (ready_destroys_spaced trace SS ND).
Defined.

Lemma durationWrapper_any_integer_witness :
  - 2 ^ 53 <= -5 <= 2 ^ 53
  /\ timestamp (durationWrapper (-5)) = "-1:55"%string
  /\ (0 <= seconds (durationWrapper (-5)) < 60
      /\ flatMinutes (durationWrapper (-5)) * 60 + seconds (durationWrapper (-5)) = -5).
Proof.
  assert (B : - 2 ^ 53 <= -5 <= 2 ^ 53) by (vm_compute; split; discriminate).
  split; [exact B|split; [vm_compute; reflexivity|]].
  apply (durationWrapper_any_integer (-5) B).
Defined.

End ExtraWitnesses.
